(** * Abogado-Parser: block archive and segmented-text codecs

    A shallow embedding of [sdk_tools.py] (the [PFTParser] index table and the
    [SDKArchive] block archive), of [scf_parser_v2.py] (the [SCFParserV2]
    segmented-text container), of the checks of [sdk_verify.py] and of the
    fixed-length injection of [rapihkan.py] and [injector_scf.py], with the
    properties of the codecs proved about the embedded functions.

    Conventions.
    - A Python [bytes] / [bytearray] value is a [list byte].
    - A Python [str] is a list of Unicode code points ([text]); entry names,
      which are used as file names, are [string]s.
    - Python slicing [l[a:b]] with non-negative bounds is [slice a b l]; both
      clip at the end of the list, as [take] and [drop] do.
    - A directory of unit files is a finite map from file names to contents.
    - What the code prints is returned as a list of messages. *)

From Stdlib Require Import Strings.Ascii Strings.Byte NArith.
From stdpp Require Import base list strings gmap.

Open Scope nat_scope.

(** ** Python sequence operations *)

(** [l[a:b]] for [0 <= a], [0 <= b]. *)
Definition slice {A} (a b : nat) (l : list A) : list A := take (b - a) (drop a l).

(** [del l[a:b]] on a bytearray. *)
Definition del_slice {A} (a b : nat) (l : list A) : list A := take a l ++ drop (Nat.max a b) l.

(** [l.insert(i, x)]: an index past the end appends. *)
Definition insert_at {A} (i : nat) (x : A) (l : list A) : list A := take i l ++ x :: drop i l.

(** [l[a:b] = new] on a bytearray (slice assignment; the lengths may differ). *)
Definition assign_slice {A} (a b : nat) (new l : list A) : list A :=
  take a l ++ new ++ drop (Nat.max a b) l.

Definition is_nul (b : byte) : bool := Byte.eqb b x00.

(** The exceptions the modelled code can raise. *)
Inductive PyError :=
  | StructError   (* struct.error *)
  | ValueError.   (* max() of an empty sequence *)

(** ** The segmented-text container, [scf_parser_v2.py] *)

Module SCF.

(** A decoded character is its code point. *)
Definition char := N.
Definition text := list char.

(** The text encoding named by [SCFParserV2.encoding].  [decode] is
    [bytes.decode(encoding, errors='ignore')], which never fails; [encode] is
    [str.encode(encoding)], which raises on an unrepresentable character. *)
Class Codec := {
  decode : list byte → text;
  encode : text → option (list byte)
}.

Record TextSegment := {
  seg_offset : nat;
  seg_length : nat;
  seg_original : list byte;
  seg_text : text
}.

(** The dictionary returned by [parse]; its ['encoding'] entry is the codec. *)
Record Container := {
  original_data : list byte;
  size : nat;
  text_segments : list TextSegment
}.

(** [U+3040 <= c <= U+30FF or U+4E00 <= c <= U+9FFF] *)
Definition is_japanese (c : char) : bool :=
  ((0x3040 <=? c) && (c <=? 0x30ff) || (0x4e00 <=? c) && (c <=? 0x9fff))%N.

Definition contains_japanese (t : text) : bool := existsb is_japanese t.

(** The inner loop: [while i < len(data) and data[i] != 0x00].  Returns the
    bytes appended to [segment] and the unread rest of the data. *)
Fixpoint scan_run (rest : list byte) : list byte * list byte :=
  match rest with
  | [] => ([], [])
  | b :: rest' =>
      if is_nul b then ([], rest)
      else let '(run, r) := scan_run rest' in (b :: run, r)
  end.

(** [if i < len(data) and data[i] == 0x00: segment.append(0x00); i += 1] *)
Definition take_terminator (segment rest : list byte) : list byte * list byte :=
  match rest with
  | b :: rest' => if is_nul b then (segment ++ [x00], rest') else (segment, rest)
  | [] => (segment, [])
  end.

(** What one iteration of the outer loop reads: the segment, and the unread
    rest of the data. *)
Definition read_segment (rest : list byte) : list byte * list byte :=
  let '(run, r1) := scan_run rest in take_terminator run r1.

Section Parser.
Context `{Codec}.

(** The body of [if len(segment) > 1:], giving the segments it appends. *)
Definition classify (start : nat) (segment : list byte) : list TextSegment :=
  if 1 <? length segment then
    let text_content := slice 0 (length segment - 1) segment in
    match text_content with
    | [] => []
    | _ =>
        let decoded := decode text_content in
        if contains_japanese decoded then
          [ {| seg_offset := start; seg_length := length segment;
               seg_original := segment; seg_text := decoded |} ]
        else []
    end
  else [].

(** The outer loop [while i < len(data)]: [rest] is [data[i:]].  Every
    iteration reads at least one byte, so [length rest] iterations suffice
    ([parse_loop_fuel] below). *)
Fixpoint parse_loop (fuel : nat) (i : nat) (rest : list byte) : list TextSegment :=
  match fuel with
  | 0 => []
  | S fuel' =>
      match rest with
      | [] => []
      | _ =>
          let '(segment, r2) := read_segment rest in
          classify i segment ++ parse_loop fuel' (i + length segment) r2
      end
  end.

Definition parse (data : list byte) : Container :=
  {| original_data := data;
     size := length data;
     text_segments := parse_loop (length data) 0 data |}.

(** [extract_texts] *)
Definition extract_texts (parsed_data : Container) : list text :=
  seg_text <$> text_segments parsed_data.

(** What [rebuild] prints. *)
Inductive Message :=
  | CountMismatch (expected got : nat)
  | EncodeError (offset : nat).

(** [for j, byte in enumerate(new_bytes): data.insert(offset + j, byte)] *)
Fixpoint insert_bytes (offset : nat) (new_bytes data : list byte) : list byte :=
  match new_bytes with
  | [] => data
  | b :: bs => insert_bytes (S offset) bs (insert_at offset b data)
  end.

(** One iteration of the replacement loop, for segment [seg] and text
    [new_text].  An encoding failure is caught before the data is touched. *)
Definition replace_segment (seg : TextSegment) (new_text : text)
    (st : list byte * list Message) : list byte * list Message :=
  let '(data, log) := st in
  match encode new_text with
  | Some encoded =>
      let new_bytes := encoded ++ [x00] in
      let offset := seg_offset seg in
      let old_length := seg_length seg in
      (insert_bytes offset new_bytes (del_slice offset (offset + old_length) data), log)
  | None => (data, log ++ [EncodeError (seg_offset seg)])
  end.

(** [for i in range(k - 1, -1, -1)].  Both lookups succeed for [i] below
    [min(len(segments), len(new_texts))], see [rebuild_loop_zip]. *)
Fixpoint rebuild_loop (k : nat) (segments : list TextSegment) (new_texts : list text)
    (st : list byte * list Message) : list byte * list Message :=
  match k with
  | 0 => st
  | S i =>
      match segments !! i, new_texts !! i with
      | Some seg, Some new_text =>
          rebuild_loop i segments new_texts (replace_segment seg new_text st)
      | _, _ => st
      end
  end.

(** [rebuild(parsed_data, new_texts)]; [None] is the default argument. *)
Definition rebuild (parsed_data : Container) (new_texts : option (list text))
    : list byte * list Message :=
  let data := original_data parsed_data in
  match new_texts with
  | None | Some [] => (data, [])
  | Some texts =>
      let segments := text_segments parsed_data in
      let log :=
        if decide (length texts = length segments) then []
        else [CountMismatch (length segments) (length texts)] in
      rebuild_loop (Nat.min (length segments) (length texts)) segments texts (data, log)
  end.

(** The position after the last byte of a segment. *)
Definition seg_end (s : TextSegment) : nat := seg_offset s + seg_length s.

(** The segments lie in the data, in order, from position [pos] on. *)
Fixpoint segments_from (data : list byte) (pos : nat) (segs : list TextSegment) : Prop :=
  match segs with
  | [] => True
  | s :: segs' =>
      pos ≤ seg_offset s ∧ 0 < seg_length s ∧
      seg_offset s + seg_length s ≤ length data ∧
      segments_from data (seg_offset s + seg_length s) segs'
  end.

(** A segment agrees with the data it was read from. *)
Definition segment_of (data : list byte) (s : TextSegment) : Prop :=
  seg_original s = slice (seg_offset s) (seg_offset s + seg_length s) data ∧
  seg_length s = length (seg_original s) ∧
  seg_text s = decode (slice 0 (seg_length s - 1) (seg_original s)) ∧
  contains_japanese (seg_text s) = true.

(** The bytes a replacement puts in place of a segment. *)
Definition replacement (data : list byte) (seg : TextSegment) (new_text : text) : list byte :=
  match encode new_text with
  | Some encoded => encoded ++ [x00]
  | None => slice (seg_offset seg) (seg_offset seg + seg_length seg) data
  end.

(** The rebuilt unit read from left to right, from position [pos] of the
    original on: the leading segments that have a replacement text are
    replaced, the bytes between and after them are the original ones. *)
Fixpoint replaced_from (data : list byte) (pos : nat)
    (segments : list TextSegment) (new_texts : list text) : list byte :=
  match segments, new_texts with
  | seg :: segments', new_text :: new_texts' =>
      slice pos (seg_offset seg) data ++ replacement data seg new_text ++
      replaced_from data (seg_offset seg + seg_length seg) segments' new_texts'
  | _, _ => drop pos data
  end.

(** The encoding failures among pairs of a segment and its text, in the
    order of the pairs. *)
Definition encode_errors (pairs : list (TextSegment * text)) : list Message :=
  pairs ≫= λ p,
    match encode p.2 with
    | Some _ => []
    | None => [EncodeError (seg_offset p.1)]
    end.

End Parser.

(** A segment moved [k] bytes further into the data. *)
Definition shift_segment (k : nat) (s : TextSegment) : TextSegment :=
  {| seg_offset := k + seg_offset s; seg_length := seg_length s;
     seg_original := seg_original s; seg_text := seg_text s |}.

End SCF.

(** ** The index table, [PFTParser] in [sdk_tools.py] *)

Module PFT.

(** An index entry is the tuple [(name, idx, size)]. *)
Abbreviation Entry := (string * N * N)%type.

(** [struct.unpack('<H', ...)] and [struct.unpack('<I', ...)] *)
Definition le_u16 (b0 b1 : byte) : N := (to_N b0 + 256 * to_N b1)%N.
Definition le_u32 (b0 b1 b2 b3 : byte) : N :=
  (to_N b0 + 256 * to_N b1 + 65536 * to_N b2 + 16777216 * to_N b3)%N.

(** [struct.unpack('<IIHH4x', buf)]: the buffer must hold exactly 16 bytes. *)
Definition unpack_header (buf : list byte) : PyError + (N * N * N * N) :=
  match buf with
  | [a0; a1; a2; a3; c0; c1; c2; c3; h0; h1; k0; k1; _; _; _; _] =>
      inr (le_u32 a0 a1 a2 a3, le_u32 c0 c1 c2 c3, le_u16 h0 h1, le_u16 k0 k1)
  | _ => inl StructError
  end.

(** [str.rstrip('\x00')], on the bytes of an ASCII string. *)
Fixpoint rstrip_nul (l : list byte) : list byte :=
  match l with
  | [] => []
  | b :: l' =>
      match rstrip_nul l' with
      | [] => if is_nul b then [] else [b]
      | r => b :: r
      end
  end.

(** [name_bytes.decode('ascii', errors='ignore').rstrip('\x00')] *)
Definition decode_name (name_bytes : list byte) : string :=
  String.string_of_list_byte (rstrip_nul (filter (λ b, (to_N b < 128)%N) name_bytes)).

(** The loop of [read] from [offset = 16] on: [rest] is [data[offset:]].  It
    stops when fewer than 16 bytes remain or at an empty name. *)
Fixpoint read_entries (rest : list byte) : list Entry :=
  match rest with
  | n0 :: n1 :: n2 :: n3 :: n4 :: n5 :: n6 :: n7 ::
    i0 :: i1 :: i2 :: i3 :: s0 :: s1 :: s2 :: s3 :: rest' =>
      let name := decode_name [n0; n1; n2; n3; n4; n5; n6; n7] in
      if decide (name = EmptyString) then []
      else (name, le_u32 i0 i1 i2 i3, le_u32 s0 s1 s2 s3) :: read_entries rest'
  | _ => []
  end.

(** [PFTParser.read], on the bytes of the index file: the retained header and
    the entries. *)
Definition read (data : list byte) : PyError + (list byte * list Entry) :=
  let header := slice 0 16 data in
  match unpack_header header with
  | inl err => inl err
  | inr header_values => inr (header, read_entries (drop 16 data))
  end.

(** What [PFTParser.write] can raise. *)
Inductive WriteError :=
  | UnicodeEncodeError   (* name.encode('ascii') *)
  | PackError.           (* struct.error, from struct.pack and struct.pack_into *)

(** The byte of value [n mod 256]. *)
Definition byte_of_N (n : N) : byte := default x00 (of_N (n mod 256)).

(** [struct.pack('<I', n)]: the value must fit 32 bits. *)
Definition pack_u32 (n : N) : WriteError + list byte :=
  if (n <? 4294967296)%N then
    inr [byte_of_N n; byte_of_N (n / 256); byte_of_N (n / 65536);
         byte_of_N (n / 16777216)]
  else inl PackError.

(** [bytes.ljust(width, fill)] *)
Definition ljust (width : nat) (fill : byte) (l : list byte) : list byte :=
  l ++ replicate (width - length l) fill.

(** [name.encode('ascii')[:8].ljust(8, b'\x00')] *)
Definition encode_name (name : string) : WriteError + list byte :=
  let encoded := String.list_byte_of_string name in
  if forallb (λ b, (to_N b <? 128)%N) encoded then
    inr (ljust 8 x00 (slice 0 8 encoded))
  else inl UnicodeEncodeError.

(** One record: [name_bytes + struct.pack('<II', idx, size)]. *)
Definition write_entry (e : Entry) : WriteError + list byte :=
  let '(name, idx, size) := e in
  match encode_name name with
  | inl err => inl err
  | inr name_bytes =>
      match pack_u32 idx, pack_u32 size with
      | inr idx_bytes, inr size_bytes => inr (name_bytes ++ idx_bytes ++ size_bytes)
      | _, _ => inl PackError
      end
  end.

(** The loop [for name, idx, size in entries] of [write]. *)
Fixpoint write_entries (entries : list Entry) : WriteError + list byte :=
  match entries with
  | [] => inr []
  | e :: entries' =>
      match write_entry e with
      | inl err => inl err
      | inr record =>
          match write_entries entries' with
          | inl err => inl err
          | inr records => inr (record ++ records)
          end
      end
  end.

(** The header [write] emits for [count] entries.  A retained header that is
    not empty is copied and its second field patched by
    [struct.pack_into('<I', header_data, 4, count)], which needs 8 bytes;
    otherwise the default header
    [struct.pack('<IIHH4x', 0x08000010, count, 0, 0)] is built. *)
Definition write_header (header : option (list byte)) (count : N)
    : WriteError + list byte :=
  match header with
  | Some (b :: header') =>
      let header_data := b :: header' in
      if length header_data <? 8 then inl PackError
      else
        match pack_u32 count with
        | inl err => inl err
        | inr count_bytes => inr (assign_slice 4 8 count_bytes header_data)
        end
  | _ =>
      match pack_u32 count with
      | inl err => inl err
      | inr count_bytes =>
          inr ([x10; x00; x00; x08] ++ count_bytes ++
               [x00; x00; x00; x00; x00; x00; x00; x00])
      end
  end.

(** [PFTParser.write], giving the bytes of the index file; [header] is
    [self.header].  When it raises, what was written of the file up to then
    is not part of the result. *)
Definition write (header : option (list byte)) (entries : list Entry)
    : WriteError + list byte :=
  match write_header header (N.of_nat (length entries)) with
  | inl err => inl err
  | inr header_data =>
      match write_entries entries with
      | inl err => inl err
      | inr records => inr (header_data ++ records)
      end
  end.

(** A name that [write] stores as it is and [read] gives back: ASCII, one to
    eight characters, the last one not null. *)
Definition storable_name (name : string) : Prop :=
  let encoded := String.list_byte_of_string name in
  0 < length encoded ∧ length encoded ≤ 8 ∧
  Forall (λ b, (to_N b < 128)%N) encoded ∧
  last encoded ≠ Some x00.

Definition storable_entry (e : Entry) : Prop :=
  storable_name e.1.1 ∧ (e.1.2 < 4294967296)%N ∧ (e.2 < 4294967296)%N.

(** An entry that [write] can store, possibly cutting its name: an ASCII
    name and two 32-bit numbers. *)
Definition writable_entry (e : Entry) : Prop :=
  Forall (λ b, (to_N b < 128)%N) (String.list_byte_of_string e.1.1) ∧
  (e.1.2 < 4294967296)%N ∧ (e.2 < 4294967296)%N.

(** A retained header that [write] can patch: none, an empty one, or one of
    at least 8 bytes. *)
Definition patchable_header (header : option (list byte)) : Prop :=
  match header with
  | Some (b :: header') => 8 ≤ length (b :: header')
  | _ => True
  end.

End PFT.

(** ** The block archive, [SDKArchive] in [sdk_tools.py] *)

Module SDK.
Import PFT.

Definition BLOCK_SIZE : N := 2048.

(** [os.path.join(dir, f"{name}.SCF")], as a key of the directory [dir]. *)
Definition scf_path (name : string) : string := name +:+ ".SCF".

(** Files written and messages printed. *)
Inductive Event :=
  | WriteFile (path : string) (scf_data : list byte)
  | OutOfRange (name : string) (idx offset size archive_size : N)
  | MissingFile (name : string).

(** *** Opening a unit file

    [open(os.path.join(output_dir, f"{name}.SCF"), 'wb')], on a POSIX file
    system with case-sensitive names.  The output directory is a directory of
    regular files that can be written, a finite map from file names to
    contents, and its own path is short: of the limits on lengths only the
    one on a single name is reached.  A name read from an index is any
    string of up to eight ASCII characters: it may hold a null character,
    which [open] refuses, or a slash, which makes the path lead through other
    directories. *)

(** The exceptions of [open(path, 'wb')]. *)
Inductive OpenError :=
  | EmbeddedNull    (* ValueError: embedded null byte *)
  | FileNotFound    (* FileNotFoundError: a directory on the way does not exist *)
  | NotADirectory   (* NotADirectoryError: a directory on the way is a regular file *)
  | NameTooLong.    (* OSError: File name too long *)

(** [c in s] *)
Fixpoint has_char (c : Ascii.ascii) (s : string) : bool :=
  match s with
  | EmptyString => false
  | String c' s' => Ascii.eqb c c' || has_char c s'
  end.

(** The parts of a relative path between its slashes: the directories on
    the way, and the last part. *)
Fixpoint split_path (path : string) : list string * string :=
  match path with
  | EmptyString => ([], EmptyString)
  | String c rest =>
      let '(dirs, last) := split_path rest in
      if Ascii.eqb c "/"%char then (EmptyString :: dirs, last)
      else
        match dirs with
        | [] => ([], String c last)
        | part :: dirs' => (String c part :: dirs', last)
        end
  end.

(** The bytes a name takes in the file system (UTF-8): one for an ASCII
    character, two for a code point from 128 to 255. *)
Fixpoint name_bytes (s : string) : nat :=
  match s with
  | EmptyString => 0
  | String c s' => (if (Ascii.N_of_ascii c <? 128)%N then 1 else 2) + name_bytes s'
  end.

(** The longest name of a directory entry. *)
Definition NAME_MAX : nat := 255.

(** Where a path relative to the output directory leads. *)
Inductive Target :=
  | InDirectory (fname : string)   (* the file [fname] of the output directory *)
  | Through (part : string)        (* below the entry [part] of the output directory *)
  | Elsewhere                      (* outside the output directory *)
  | Refused (err : OpenError).     (* nowhere: [open] raises *)

(** Path resolution from the output directory on: empty parts and [.] stay
    in the directory, [..] leaves it, any other part on the way must be a
    subdirectory. *)
Fixpoint walk (dirs : list string) (last : string) : Target :=
  match dirs with
  | [] =>
      if NAME_MAX <? name_bytes last then Refused NameTooLong else InDirectory last
  | part :: dirs' =>
      if String.eqb part "" || String.eqb part "." then walk dirs' last
      else if String.eqb part ".." then Elsewhere
      else if NAME_MAX <? name_bytes part then Refused NameTooLong
      else Through part
  end.

(** The file that [os.path.join(output_dir, f"{name}.SCF")] names.  [open]
    looks for a null character before anything else; [os.path.join] drops
    [output_dir] when the second path is absolute.  The last part of the
    path ends in [.SCF], so it is a name, not [.] or [..]. *)
Definition target (name : string) : Target :=
  let fname := scf_path name in
  if has_char "000"%char fname then Refused EmbeddedNull
  else
    match fname with
    | String "/"%char _ => Elsewhere
    | _ => let '(dirs, last) := split_path fname in walk dirs last
    end.

(** Why the extraction loop is left before its end: an exception of [open],
    or a file opened outside the output directory, where the run is beyond
    what the map of the directory tells and is followed no further. *)
Inductive Stop :=
  | Raises (err : OpenError)
  | LeavesDirectory (name : string).

(** The body of the extraction loop of [unpack].  There is no [try] around
    [open]: an exception ends the loop and [unpack]. *)
Definition unpack_step (archive_data : list byte)
    (st : gmap string (list byte) * nat * list Event) (e : Entry)
    : Stop + gmap string (list byte) * nat * list Event :=
  let '(dir, extracted, log) := st in
  let '(name, idx, size) := e in
  let offset := (idx * BLOCK_SIZE)%N in
  if (offset + size <=? N.of_nat (length archive_data))%N then
    let scf_data := slice (N.to_nat offset) (N.to_nat (offset + size)) archive_data in
    let output_path := scf_path name in
    match target name with
    | InDirectory fname =>
        inr (<[fname := scf_data]> dir, S extracted,
             log ++ [WriteFile output_path scf_data])
    | Through part =>
        match dir !! part with
        | Some _ => inl (Raises NotADirectory)
        | None => inl (Raises FileNotFound)
        end
    | Elsewhere => inl (LeavesDirectory name)
    | Refused err => inl (Raises err)
    end
  else
    inr (dir, extracted,
         log ++ [OutOfRange name idx offset size (N.of_nat (length archive_data))]).

(** The extraction loop: the state it ends in, or why it was left, with the
    directory and the events at that point. *)
Fixpoint unpack_loop (archive_data : list byte) (entries : list Entry)
    (st : gmap string (list byte) * nat * list Event)
    : Stop * gmap string (list byte) * list Event
      + gmap string (list byte) * nat * list Event :=
  match entries with
  | [] => inr st
  | e :: entries' =>
      match unpack_step archive_data st e with
      | inl stop => inl (stop, st.1.1, st.2)
      | inr st' => unpack_loop archive_data entries' st'
      end
  end.

(** [unpack], for the entries read from the index: the output directory
    afterwards, the count it returns and its events, or the exception that
    ended it.  [output_dir] is the directory before the call
    ([os.makedirs(..., exist_ok=True)]). *)
Definition unpack (entries : list Entry) (archive_data : list byte)
    (output_dir : gmap string (list byte))
    : Stop * gmap string (list byte) * list Event
      + gmap string (list byte) * nat * list Event :=
  unpack_loop archive_data entries (output_dir, 0, []).


(** A name that is a file name: no null character, no slash, and short
    enough with its extension. *)
Definition plain_name (name : string) : Prop :=
  has_char "000"%char name = false ∧ has_char "/"%char name = false ∧
  name_bytes (scf_path name) ≤ NAME_MAX.

(** What the loop body does for an entry with a plain name. *)
Definition extract_step (archive_data : list byte)
    (st : gmap string (list byte) * nat * list Event) (e : Entry)
    : gmap string (list byte) * nat * list Event :=
  let '(dir, extracted, log) := st in
  let '(name, idx, size) := e in
  let offset := (idx * BLOCK_SIZE)%N in
  if (offset + size <=? N.of_nat (length archive_data))%N then
    let scf_data := slice (N.to_nat offset) (N.to_nat (offset + size)) archive_data in
    let output_path := scf_path name in
    (<[output_path := scf_data]> dir, S extracted, log ++ [WriteFile output_path scf_data])
  else
    (dir, extracted,
     log ++ [OutOfRange name idx offset size (N.of_nat (length archive_data))]).

(** [max(idx for _, idx, _ in original_entries)] *)
Definition max_block (original_entries : list Entry) : PyError + N :=
  match original_entries with
  | [] => inl ValueError
  | _ => inr (foldr N.max 0%N ((λ e : Entry, e.1.2) <$> original_entries))
  end.

(** The body of the packing loop of [repack]. *)
Definition repack_step (input_dir : gmap string (list byte))
    (st : list byte * list Entry * list Event) (e : Entry)
    : list byte * list Entry * list Event :=
  let '(archive_data, new_entries, log) := st in
  let '(name, orig_idx, orig_size) := e in
  match input_dir !! scf_path name with
  | None => (archive_data, new_entries, log ++ [MissingFile name])
  | Some scf_data =>
      let new_size := N.of_nat (length scf_data) in
      let offset := (orig_idx * BLOCK_SIZE)%N in
      (assign_slice (N.to_nat offset) (N.to_nat (offset + new_size)) scf_data archive_data,
       new_entries ++ [(name, orig_idx, new_size)], log)
  end.

(** [repack], for the entries read from the original index: the archive
    bytes it writes, the entries it hands to [PFTParser.write], and its
    events. *)
Definition repack (original_entries : list Entry) (input_dir : gmap string (list byte))
    : PyError + (list byte * list Entry * list Event) :=
  match max_block original_entries with
  | inl err => inl err
  | inr max_blk =>
      let total_blocks := (max_blk + 1)%N in
      let archive_data := replicate (N.to_nat (total_blocks * BLOCK_SIZE)) x00 in
      inr (foldl (repack_step input_dir) (archive_data, [], []) original_entries)
  end.

(** What [unpack] does for one entry with a plain name: the file it writes
    or the error it prints. *)
Definition unpack_event (archive_data : list byte) (e : Entry) : Event :=
  let '(name, idx, size) := e in
  let offset := (idx * BLOCK_SIZE)%N in
  if (offset + size <=? N.of_nat (length archive_data))%N then
    WriteFile (scf_path name)
      (slice (N.to_nat offset) (N.to_nat (offset + size)) archive_data)
  else OutOfRange name idx offset size (N.of_nat (length archive_data)).

(** The span of an entry in the archive. *)
Definition entry_offset (e : Entry) : nat := N.to_nat (e.1.2 * BLOCK_SIZE).
Definition entry_end (e : Entry) : nat := N.to_nat (e.1.2 * BLOCK_SIZE + e.2).
Definition in_span (p : nat) (e : Entry) : Prop := entry_offset e ≤ p < entry_end e.

(** [SDKArchive.unpack], on the bytes of the index file and of the archive.
    The index is read before the output directory is touched. *)
Definition unpack_archive (index_data archive_data : list byte)
    (output_dir : gmap string (list byte))
    : PyError + (Stop * gmap string (list byte) * list Event
                 + gmap string (list byte) * nat * list Event) :=
  match read index_data with
  | inl err => inl err
  | inr (_, entries) => inr (unpack entries archive_data output_dir)
  end.


(** The entries [repack] is expected to record and the warnings it is
    expected to print: one or the other for each entry, by whether its unit
    file exists. *)
Definition packed_entry (input_dir : gmap string (list byte)) (e : Entry)
    : option Entry :=
  scf_data ← input_dir !! scf_path e.1.1;
  Some (e.1.1, e.1.2, N.of_nat (length scf_data)).

Definition missing_event (input_dir : gmap string (list byte)) (e : Entry)
    : option Event :=
  match input_dir !! scf_path e.1.1 with
  | None => Some (MissingFile e.1.1)
  | Some _ => None
  end.

(** The span a present unit takes in the new archive. *)
Definition unit_span (input_dir : gmap string (list byte)) (p : nat) (e : Entry)
    : Prop :=
  ∃ scf_data, input_dir !! scf_path e.1.1 = Some scf_data ∧
              entry_offset e ≤ p < entry_offset e + length scf_data.

(** Present units of different entries share no byte of the new archive. *)
Definition units_disjoint (input_dir : gmap string (list byte))
    (entries : list Entry) : Prop :=
  ∀ e1 e2 p, e1 ∈ entries → e2 ∈ entries →
             unit_span input_dir p e1 → unit_span input_dir p e2 → e1 = e2.

End SDK.

(** ** The integrity check, [sdk_verify.py] *)

Module Verify.
Import PFT.

(** [analyze_pft], on the bytes of the index file: the entries and the sum
    of their sizes.  Its loop is the loop of [PFTParser.read]. *)
Definition analyze_pft (data : list byte) : PyError + (list Entry * N) :=
  match unpack_header (slice 0 16 data) with
  | inl err => inl err
  | inr header =>
      let entries := read_entries (drop 16 data) in
      inr (entries, foldl (λ cumulative e, cumulative + e.2)%N 0%N entries)
  end.

(** The body of the entry loop of [verify_integrity]: the running offset and
    the error count. *)
Definition verify_step (actual_size : N) (st : N * nat) (e : Entry) : N * nat :=
  let '(offset, errors) := st in
  let '(name, idx, size) := e in
  (if (actual_size <? offset + size)%N then (offset + size, S errors)%N
   else (offset + size, errors)%N).

(** [verify_integrity], on the bytes of the index file and of the archive. *)
Definition verify_integrity (pft_data archive_data : list byte) : PyError + bool :=
  match analyze_pft pft_data with
  | inl err => inl err
  | inr (entries, expected_size) =>
      let actual_size := N.of_nat (length archive_data) in
      let '(_, errors) := foldl (verify_step actual_size) (0%N, 0) entries in
      inr ((errors =? 0) && (expected_size =? actual_size)%N)
  end.

(** The search for the first difference in [compare_archives]:
    [for i, (a, b) in enumerate(zip(orig_data, new_data)): if a != b: ... break],
    from index [i] on. *)
Fixpoint first_difference (i : nat) (orig_data new_data : list byte)
    : option (nat * byte * byte) :=
  match orig_data, new_data with
  | a :: orig', b :: new' =>
      if Byte.eqb a b then first_difference (S i) orig' new' else Some (i, a, b)
  | _, _ => None
  end.

End Verify.

(** ** The fixed-length text injection, [rapihkan.py] and [injector_scf.py] *)

Module Inject.
Import SCF PFT.

(** [data[i:].startswith(sub)] *)
Fixpoint starts_with (sub data : list byte) : bool :=
  match sub, data with
  | [], _ => true
  | s :: sub', d :: data' => Byte.eqb s d && starts_with sub' data'
  | _ :: _, [] => false
  end.

(** [data.find(sub)], searching from index [i] of the whole data on: the
    lowest index at which [sub] occurs, [None] for [-1]. *)
Fixpoint find_from (i : nat) (sub data : list byte) : option nat :=
  if starts_with sub data then Some i
  else
    match data with
    | [] => None
    | _ :: data' => find_from (S i) sub data'
    end.

Definition find (sub data : list byte) : option nat := find_from 0 sub data.

(** The replacement brought to the length of the original: padded with
    spaces, or cut. *)
Definition fit_length (target_len : nat) (repl_bytes : list byte) : list byte :=
  if length repl_bytes <? target_len then ljust target_len x20 repl_bytes
  else if target_len <? length repl_bytes then slice 0 target_len repl_bytes
  else repl_bytes.

Section Scripts.
Context `{Codec}.

(** The loop body of [kodingan_final_rapi] in [rapihkan.py]; [None] is an
    encoding error, which ends the run before any file is written. *)
Definition rapi_step (data : list byte) (item : text * text) : option (list byte) :=
  let '(original, replacement) := item in
  orig_bytes ← encode original;
  repl_bytes ← encode replacement;
  let target_len := length orig_bytes in
  match find orig_bytes data with
  | Some idx =>
      let repl_bytes := fit_length target_len repl_bytes in
      Some (assign_slice idx (idx + target_len) repl_bytes data)
  | None => Some data
  end.

(** The loop body of [kalibrasi_visual_final_banget] in [injector_scf.py]. *)
Definition kalibrasi_step (data : list byte) (item : text * text) : option (list byte) :=
  let '(original, replacement) := item in
  orig_bytes ← encode original;
  let target_len := length orig_bytes in
  repl_bytes ← encode replacement;
  let repl_bytes := fit_length target_len repl_bytes in
  match find orig_bytes data with
  | Some idx => Some (assign_slice idx (idx + target_len) repl_bytes data)
  | None => Some data
  end.

(** [for original, replacement in translations.items()] over the bytes of
    the file; the table is the list of its items, in insertion order. *)
Fixpoint run_steps (step : list byte → text * text → option (list byte))
    (translations : list (text * text)) (data : list byte) : option (list byte) :=
  match translations with
  | [] => Some data
  | item :: translations' =>
      data' ← step data item; run_steps step translations' data'
  end.

(** The bytes the scripts write, for a translation table. *)
Definition kodingan_final_rapi := run_steps rapi_step.
Definition kalibrasi_visual_final_banget := run_steps kalibrasi_step.

End Scripts.

(** The window [idx, idx + n) of a replacement. *)
Definition occurs_at (sub data : list byte) (idx : nat) : Prop :=
  slice idx (idx + length sub) data = sub ∧ idx + length sub ≤ length data.

End Inject.

(** ** A text codec instance and sample data *)

Module Samples.
Import SCF PFT SDK.

(** The part of Shift-JIS used by the samples: ASCII bytes stand for
    themselves, and [0x82 0x9F .. 0x82 0xF1] is the hiragana row
    [U+3041 .. U+3093].  Any other byte is skipped by the decoder, and any
    other character is refused by the encoder. *)
Fixpoint hiragana_decode (bs : list byte) : text :=
  match bs with
  | [] => []
  | b :: rest =>
      let n := to_N b in
      if (n <? 0x80)%N then n :: hiragana_decode rest
      else
        match rest with
        | b2 :: rest' =>
            let m := to_N b2 in
            if ((n =? 0x82) && (0x9F <=? m) && (m <=? 0xF1))%N
            then (0x3041 + (m - 0x9F))%N :: hiragana_decode rest'
            else hiragana_decode rest
        | [] => []
        end
  end.

Definition hiragana_encode_char (c : char) : option (list byte) :=
  if (c <? 0x80)%N then b ← of_N c; Some [b]
  else if ((0x3041 <=? c) && (c <=? 0x3093))%N
       then b ← of_N (0x9F + (c - 0x3041))%N; Some [x82; b]
       else None.

Fixpoint hiragana_encode (t : text) : option (list byte) :=
  match t with
  | [] => Some []
  | c :: t' =>
      bs ← hiragana_encode_char c; rest ← hiragana_encode t'; Some (bs ++ rest)
  end.

Definition hiragana : Codec :=
  {| decode := hiragana_decode; encode := hiragana_encode |}.

(** A unit whose text run reaches the end of the file without a terminator:
    hiragana A (U+3042) and the letter x. *)
Definition unterminated_unit : list byte := [x82; xa0; x78].

(** A unit with two terminated text runs (U+3042, and U+3044 U+3046) around
    a terminated run that is not text (the letters AB). *)
Definition two_segment_unit : list byte :=
  [x82; xa0; x00; x41; x42; x00; x82; xa2; x82; xa4; x00].

(** An index entry reaching past the end of a one-block archive. *)
Definition long_entries : list Entry := [("A"%string, 0%N, 3000%N)].
Definition ones_archive : list byte := replicate 2048 x01.

(** Two index entries with one name. *)
Definition twin_entries : list Entry := [("A"%string, 0%N, 1%N); ("A"%string, 1%N, 1%N)].
Definition twin_archive : list byte :=
  x01 :: replicate 2047 x00 ++ x02 :: replicate 2047 x00.

(** A replacement unit one byte longer than the only block of the archive. *)
Definition short_entries : list Entry := [("A"%string, 0%N, 10%N)].
Definition big_unit_dir : gmap string (list byte) :=
  {[ scf_path "A" := replicate 2049 x41 ]}.

(** The index and the sparse archive of the end-to-end example: unit SCN002
    in block 0 with 100 bytes, unit SCN003 in block 5 with 50 bytes, six
    blocks in all. *)
Definition sparse_index : list byte :=
  [x10; x00; x00; x08; x02; x00; x00; x00; x00; x00; x00; x00; x00; x00; x00; x00] ++
  [x53; x43; x4e; x30; x30; x32; x00; x00; x00; x00; x00; x00; x64; x00; x00; x00] ++
  [x53; x43; x4e; x30; x30; x33; x00; x00; x05; x00; x00; x00; x32; x00; x00; x00].
Definition sparse_entries : list Entry :=
  [("SCN002"%string, 0%N, 100%N); ("SCN003"%string, 5%N, 50%N)].
Definition sparse_archive : list byte :=
  replicate 100 x01 ++ replicate (N.to_nat 10140) x00 ++ replicate 50 x02 ++
  replicate 1998 x00.

(** An index whose first name holds a null character, [A\0B], for one byte
    of block 0; its second entry, [C], lies past the end of a one-block
    archive. *)
Definition nul_index : list byte :=
  [x10; x00; x00; x08; x02; x00; x00; x00; x00; x00; x00; x00; x00; x00; x00; x00] ++
  [x41; x00; x42; x00; x00; x00; x00; x00; x00; x00; x00; x00; x01; x00; x00; x00] ++
  [x43; x00; x00; x00; x00; x00; x00; x00; x09; x00; x00; x00; x01; x00; x00; x00].
Definition nul_entries : list Entry :=
  [(String "A"%char (String "000"%char (String "B"%char EmptyString)), 0%N, 1%N); ("C"%string, 9%N, 1%N)].

(** The unit files of the end-to-end example. *)
Definition sparse_units : gmap string (list byte) :=
  {[ scf_path "SCN002" := replicate 100 x01; scf_path "SCN003" := replicate 50 x02 ]}.

End Samples.

(** * Properties *)

(** ** Sequence operations *)

Lemma is_nul_true b : is_nul b = true ↔ b = x00.
Proof.
  unfold is_nul. split.
  - apply byte_dec_bl.
  - intros ->. reflexivity.
Qed.

Lemma is_nul_false b : is_nul b = false ↔ b ≠ x00.
Proof.
  rewrite <- is_nul_true. destruct (is_nul b); split; congruence.
Qed.

Lemma slice_length_in_range {A} (a n : nat) (l : list A) :
  a + n ≤ length l → length (slice a (a + n) l) = n.
Proof. intros Hle. unfold slice. rewrite length_take, length_drop. lia. Qed.

Lemma slice_lookup {A} (a n k : nat) (l : list A) :
  k < n → slice a (a + n) l !! k = l !! (a + k).
Proof.
  intros Hk. unfold slice. rewrite lookup_take_lt by lia. apply lookup_drop.
Qed.

Lemma slice_app_mid {A} (pre seg post : list A) :
  slice (length pre) (length pre + length seg) (pre ++ seg ++ post) = seg.
Proof.
  unfold slice. rewrite drop_app_length.
  replace (length pre + length seg - length pre) with (length seg) by lia.
  apply take_app_length.
Qed.

Lemma slice_take_drop {A} (a b : nat) (l : list A) :
  a ≤ b → slice a b l = drop a (take b l).
Proof.
  intros Hab. unfold slice. rewrite take_drop_commute.
  replace (a + (b - a)) with b by lia. reflexivity.
Qed.

(** A prefix of the data, cut at two earlier positions. *)
Lemma take_three {A} (a b c : nat) (l : list A) :
  a ≤ b → b ≤ c →
  take c l = take a l ++ slice a b l ++ slice b c l.
Proof.
  intros Hab Hbc. rewrite !slice_take_drop by lia. rewrite app_assoc.
  replace (take a l) with (take a (take b l))
    by (rewrite take_take; f_equal; lia).
  rewrite take_drop.
  replace (take b l) with (take b (take c l))
    by (rewrite take_take; f_equal; lia).
  rewrite take_drop. reflexivity.
Qed.

(** Inserting the bytes one at a time splices them in as a block; past the
    end of the data they are appended. *)
Lemma insert_bytes_eq (new_bytes : list byte) :
  ∀ offset data,
    SCF.insert_bytes offset new_bytes data
    = take offset data ++ new_bytes ++ drop offset data.
Proof.
  induction new_bytes as [|b bs IH]; intros offset data; simpl.
  - symmetry. apply take_drop.
  - rewrite IH. unfold insert_at.
    destruct (decide (offset ≤ length data)) as [Hle|Hgt].
    + assert (Hlen : length (take offset data) = offset)
        by (rewrite length_take; lia).
      rewrite (take_app_ge _ _ (S offset)), (drop_app_ge _ _ (S offset)) by lia.
      rewrite Hlen. replace (S offset - offset) with 1 by lia.
      simpl. rewrite take_0, drop_0, <- app_assoc. reflexivity.
    + rewrite (take_ge data offset), (drop_ge data offset) by lia. simpl.
      rewrite take_ge, drop_ge by (rewrite length_app; simpl; lia).
      rewrite <- app_assoc. reflexivity.
Qed.

(** ** The segmented-text container *)

Module SCFFacts.
Import SCF.

Lemma scan_run_spec rest : ∀ run r,
  scan_run rest = (run, r) →
  rest = run ++ r ∧ Forall (λ b, b ≠ x00) run ∧ (r = [] ∨ ∃ r', r = x00 :: r').
Proof.
  induction rest as [|b rest IH]; intros run r; simpl.
  - intros [= <- <-]. split_and!; auto.
  - destruct (is_nul b) eqn:Hb.
    + intros [= <- <-]. apply is_nul_true in Hb as ->. split_and!; eauto.
    + destruct (scan_run rest) as [run' r'] eqn:Hs. intros [= <- <-].
      destruct (IH _ _ eq_refl) as (-> & Hall & Hr). split_and!; auto.
      constructor; auto. by apply is_nul_false.
Qed.

(** One iteration reads a non-empty block off the front of the unread data:
    a run without null bytes and its terminator, or a run that reaches the
    end of the data. *)
Lemma read_segment_spec rest segment r2 :
  rest ≠ [] → read_segment rest = (segment, r2) →
  rest = segment ++ r2 ∧ 0 < length segment ∧
  ∃ run, Forall (λ b, b ≠ x00) run ∧
         (segment = run ++ [x00] ∨ segment = run ∧ r2 = []).
Proof.
  intros Hne. unfold read_segment.
  destruct (scan_run rest) as [run r1] eqn:Hs.
  destruct (scan_run_spec _ _ _ Hs) as (-> & Hall & [-> | [r' ->]]); simpl.
  - intros [= <- <-]. rewrite app_nil_r in *. split_and!; auto.
    + destruct run; [done | simpl; lia].
    + exists run. auto.
  - intros [= <- <-]. split_and!.
    + by rewrite <- app_assoc.
    + rewrite length_app. simpl. lia.
    + exists run. auto.
Qed.

Lemma read_segment_cons b rest :
  b ≠ x00 →
  read_segment (b :: rest) = ((b :: (read_segment rest).1), (read_segment rest).2).
Proof.
  intros Hb%is_nul_false. unfold read_segment. simpl. rewrite Hb.
  destruct (scan_run rest) as [run r1]. destruct r1 as [|c r1]; simpl; [done|].
  by destruct (is_nul c).
Qed.

(** A run without null bytes that is followed by a null byte is read off
    together with that byte. *)
Lemma read_segment_terminated run rest :
  Forall (λ b, b ≠ x00) run →
  read_segment (run ++ x00 :: rest) = (run ++ [x00], rest).
Proof.
  induction 1 as [|b run Hb _ IH]; [done|].
  simpl. rewrite read_segment_cons by done. by rewrite IH.
Qed.

(** Reading a segment off data whose last byte is null does not look past
    that byte. *)
Lemma read_segment_app pre rest :
  pre ≠ [] → last pre = Some x00 →
  ∃ segment r2,
    read_segment pre = (segment, r2) ∧
    read_segment (pre ++ rest) = (segment, r2 ++ rest) ∧
    pre = segment ++ r2 ∧ 0 < length segment ∧
    (r2 = [] ∨ last r2 = Some x00).
Proof.
  induction pre as [|b pre IH]; intros Hne Hlast; [done|].
  destruct (byte_eq_dec b x00) as [->|Hb].
  - exists [x00], pre. split_and!; try done; [simpl; lia|].
    destruct pre as [|c pre]; [by left | right]. by rewrite last_cons_cons in Hlast.
  - destruct pre as [|c pre]; [simpl in Hlast; congruence|].
    rewrite last_cons_cons in Hlast.
    destruct (IH ltac:(done) Hlast) as (segment & r2 & Hr & Hr' & Heq & Hpos & Hend).
    exists (b :: segment), r2. rewrite <- app_comm_cons.
    rewrite (read_segment_cons b (c :: pre)),
      (read_segment_cons b ((c :: pre) ++ rest)) by done.
    rewrite Hr, Hr'.
    split_and!; try done; [by rewrite Heq | simpl; lia].
Qed.

Section WithCodec.
Context `{Codec}.

Lemma parse_loop_cons fuel i b rest :
  parse_loop (S fuel) i (b :: rest) =
  let '(segment, r2) := read_segment (b :: rest) in
  classify i segment ++ parse_loop fuel (i + length segment) r2.
Proof. reflexivity. Qed.

(** The loop needs no more iterations than there are unread bytes: [parse]
    gives it enough. *)
Lemma parse_loop_fuel f1 : ∀ f2 i rest,
  length rest ≤ f1 → length rest ≤ f2 →
  parse_loop f1 i rest = parse_loop f2 i rest.
Proof.
  induction f1 as [|f1 IH]; intros [|f2] i [|b rest] H1 H2;
    simpl in H1, H2; try lia; try reflexivity.
  rewrite !parse_loop_cons.
  destruct (read_segment (b :: rest)) as [segment r2] eqn:Hr.
  destruct (read_segment_spec (b :: rest) _ _ ltac:(done) Hr) as (Heq & Hpos & _).
  apply (f_equal length) in Heq. rewrite length_app in Heq. simpl in Heq.
  f_equal. apply IH; lia.
Qed.

Lemma segments_from_weaken data pos pos' segs :
  pos' ≤ pos → segments_from data pos segs → segments_from data pos' segs.
Proof. destruct segs; simpl; [done|]. intros ? (? & ? & ? & ?). split_and!; auto; lia. Qed.

Lemma classify_spec start segment s :
  s ∈ classify start segment →
  s = {| seg_offset := start; seg_length := length segment;
         seg_original := segment;
         seg_text := decode (slice 0 (length segment - 1) segment) |} ∧
  1 < length segment ∧
  contains_japanese (decode (slice 0 (length segment - 1) segment)) = true.
Proof.
  unfold classify. destruct (1 <? length segment) eqn:Hlen; [|by intros ?%elem_of_nil].
  apply Nat.ltb_lt in Hlen.
  destruct (slice 0 (length segment - 1) segment) eqn:Hs; [by intros ?%elem_of_nil|].
  destruct (contains_japanese _) eqn:Hj; [|by intros ?%elem_of_nil].
  intros ->%list_elem_of_singleton. auto.
Qed.

Lemma classify_length start segment : length (classify start segment) ≤ 1.
Proof.
  unfold classify. repeat case_match; simpl; lia.
Qed.

(** The loop invariant: read from position [length pre] of [pre ++ rest], the
    segments are in order, inside the data, and agree with it. *)
Lemma parse_loop_inv fuel : ∀ pre rest,
  segments_from (pre ++ rest) (length pre) (parse_loop fuel (length pre) rest) ∧
  Forall (segment_of (pre ++ rest)) (parse_loop fuel (length pre) rest).
Proof.
  induction fuel as [|fuel IH]; intros pre [|b rest]; try (simpl; by auto).
  rewrite parse_loop_cons.
  destruct (read_segment (b :: rest)) as [segment r2] eqn:Hr.
  destruct (read_segment_spec (b :: rest) _ _ ltac:(done) Hr) as (Heq & Hpos & _).
  rewrite Heq. clear Hr Heq.
  specialize (IH (pre ++ segment) r2).
  rewrite length_app, <- app_assoc in IH. destruct IH as [IHs IHf].
  assert (Hcases : classify (length pre) segment = [] ∨
                   ∃ s, classify (length pre) segment = [s]).
  { pose proof (classify_length (length pre) segment).
    destruct (classify _ _) as [|s [|]]; simpl in *; eauto; lia. }
  destruct Hcases as [-> | [s Hs]]; simpl.
  - split; [|done]. eapply segments_from_weaken; [|done]. lia.
  - rewrite Hs. simpl.
    destruct (classify_spec (length pre) segment s) as (-> & Hlen & Hj);
      [rewrite Hs; by left|].
    simpl. split.
    + split_and!; try lia; [|done].
      rewrite !length_app. lia.
    + constructor; [|done]. unfold segment_of; simpl.
      rewrite slice_app_mid. auto.
Qed.

Lemma parse_segments_from data :
  segments_from data 0 (text_segments (parse data)).
Proof. apply (parse_loop_inv (length data) [] data). Qed.

Lemma parse_segment_of data :
  Forall (segment_of data) (text_segments (parse data)).
Proof. apply (parse_loop_inv (length data) [] data). Qed.

Lemma segments_from_lookup data segs : ∀ pos j s,
  segments_from data pos segs → segs !! j = Some s →
  pos ≤ seg_offset s ∧ 0 < seg_length s ∧ seg_end s ≤ length data.
Proof.
  unfold seg_end.
  induction segs as [|s0 segs IH]; intros pos j s; [done|].
  intros (Hpos & Hlen & Hend & Hrest). destruct j as [|j]; simpl.
  - intros [= <-]. auto.
  - intros Hj. destruct (IH _ _ _ Hrest Hj) as (? & ? & ?). split_and!; auto; lia.
Qed.

Lemma segments_from_ordered data segs : ∀ pos i j a b,
  segments_from data pos segs → i < j →
  segs !! i = Some a → segs !! j = Some b →
  seg_end a ≤ seg_offset b.
Proof.
  induction segs as [|s0 segs IH]; intros pos i j a b; [done|].
  intros (Hpos & Hlen & Hend & Hrest) Hij. destruct j as [|j]; [lia|].
  destruct i as [|i]; simpl.
  - intros [= <-] Hj. by destruct (segments_from_lookup _ _ _ _ _ Hrest Hj).
  - intros Hi Hj. eapply (IH _ i j); eauto; lia.
Qed.

(** The replacement loop visits the pairs of a segment and its text from the
    last one to the first; no lookup fails. *)
Lemma rebuild_loop_zip k : ∀ segments new_texts st,
  k ≤ length segments → k ≤ length new_texts →
  rebuild_loop k segments new_texts st =
  foldr (λ p, replace_segment p.1 p.2) st (take k (zip segments new_texts)).
Proof.
  induction k as [|i IH]; intros segments new_texts st Hs Ht; simpl.
  - done.
  - destruct (lookup_lt_is_Some_2 segments i) as [seg Hseg]; [lia|].
    destruct (lookup_lt_is_Some_2 new_texts i) as [t Ht']; [lia|].
    rewrite Hseg, Ht'.
    erewrite take_S_r by (apply lookup_zip_Some; eauto).
    rewrite foldr_snoc. apply IH; lia.
Qed.

Lemma encode_errors_snoc pairs s t :
  encode_errors (pairs ++ [(s, t)])
  = encode_errors pairs ++
    match encode t with Some _ => [] | None => [EncodeError (seg_offset s)] end.
Proof.
  unfold encode_errors. rewrite bind_app. f_equal.
  cbn. by rewrite app_nil_r.
Qed.

(** Replacing segments that lie from [pos] on leaves the first [pos] bytes
    alone and yields [replaced_from] after them; the failures are reported
    from the last pair to the first. *)
Lemma replace_all_spec data segments : ∀ new_texts pos log,
  segments_from data pos segments → pos ≤ length data →
  foldr (λ p, replace_segment p.1 p.2) (data, log) (zip segments new_texts)
  = (take pos data ++ replaced_from data pos segments new_texts,
     log ++ encode_errors (reverse (zip segments new_texts))).
Proof.
  induction segments as [|s segments IH]; intros new_texts pos log Hsegs Hpos.
  - simpl. by rewrite take_drop, app_nil_r.
  - destruct new_texts as [|t new_texts].
    { simpl. by rewrite take_drop, app_nil_r. }
    destruct Hsegs as (Hle & Hlen & Hend & Hrest).
    change (zip (s :: segments) (t :: new_texts))
      with ((s, t) :: zip segments new_texts).
    rewrite reverse_cons, encode_errors_snoc.
    cbn [foldr]. rewrite (IH new_texts _ log Hrest Hend).
    cbn [fst snd replaced_from replace_segment].
    unfold replacement. destruct (encode t) as [encoded|].
    + rewrite app_nil_r. f_equal.
      set (R := replaced_from data _ segments new_texts).
      assert (Hl : length (take (seg_offset s + seg_length s) data)
                   = seg_offset s + seg_length s)
        by (rewrite length_take; lia).
      assert (Hl' : length (take (seg_offset s) data) = seg_offset s)
        by (rewrite length_take; lia).
      assert (Hdel : del_slice (seg_offset s) (seg_offset s + seg_length s)
                       (take (seg_offset s + seg_length s) data ++ R)
                     = take (seg_offset s) data ++ R).
      { unfold del_slice. rewrite Nat.max_r by lia.
        rewrite (take_app_le _ _ (seg_offset s)) by lia.
        rewrite take_take, Nat.min_l by lia.
        by rewrite drop_app_length'. }
      rewrite Hdel, insert_bytes_eq.
      rewrite take_app_length', drop_app_length' by done.
      rewrite (take_three pos (seg_offset s) (seg_offset s) data) by lia.
      unfold slice at 2. rewrite Nat.sub_diag, take_0, app_nil_r.
      by rewrite <- !app_assoc.
    + f_equal; [|by rewrite app_assoc].
      rewrite (take_three pos (seg_offset s) (seg_offset s + seg_length s) data)
        by lia.
      by rewrite <- !app_assoc.
Qed.

(** After the last replaced segment the rebuilt unit is the original data. *)
Lemma replaced_from_tail data new_texts : ∀ segments pos,
  new_texts ≠ [] → length new_texts ≤ length segments →
  ∃ pre last,
    segments !! (length new_texts - 1) = Some last ∧
    replaced_from data pos segments new_texts = pre ++ drop (seg_end last) data.
Proof.
  induction new_texts as [|t new_texts IH]; intros segments pos Hne Hlen; [done|].
  destruct segments as [|s segments]; [simpl in Hlen; lia|].
  simpl in Hlen. destruct new_texts as [|t' new_texts].
  - exists (slice pos (seg_offset s) data ++ replacement data s t), s.
    split; [done|]. simpl. destruct segments; by rewrite <- app_assoc.
  - destruct (IH segments (seg_offset s + seg_length s)) as (pre & last & Hl & Heq);
      [done | simpl in *; lia |].
    exists (slice pos (seg_offset s) data ++ replacement data s t ++ pre), last.
    split.
    + simpl in *. by rewrite Nat.sub_0_r in Hl.
    + cbn [replaced_from]. rewrite Heq. by rewrite <- !app_assoc.
Qed.

Lemma parse_loop_nil fuel i : parse_loop fuel i [] = [].
Proof. by destruct fuel. Qed.

(** The scan of data that continues after a null byte is the scan of the
    part up to that byte followed by the scan of the rest. *)
Lemma parse_loop_app fuel : ∀ i pre rest,
  length (pre ++ rest) ≤ fuel → pre = [] ∨ last pre = Some x00 →
  parse_loop fuel i (pre ++ rest)
  = parse_loop fuel i pre ++ parse_loop fuel (i + length pre) rest.
Proof.
  induction fuel as [|fuel IH]; intros i pre rest Hlen Hend.
  - destruct pre, rest; simpl in Hlen; try lia. done.
  - destruct pre as [|b pre].
    { simpl (length []). by rewrite Nat.add_0_r. }
    destruct Hend as [|Hlast]; [done|].
    destruct (read_segment_app (b :: pre) rest ltac:(done) Hlast)
      as (segment & r2 & Hr & Hr' & Heq & Hpos & Hend).
    rewrite <- app_comm_cons at 1. rewrite !parse_loop_cons.
    rewrite app_comm_cons, Hr, Hr'.
    assert (Hl : length (b :: pre) = length segment + length r2)
      by (by rewrite Heq, length_app).
    rewrite length_app in Hlen.
    rewrite IH by (rewrite ?length_app; done || lia).
    rewrite <- app_assoc. do 2 f_equal.
    rewrite Hl, Nat.add_assoc. apply parse_loop_fuel; lia.
Qed.

(** X26. A run of non-null bytes that starts the unit or follows
    a null byte, and is ended by a null byte, is recorded as a segment
    exactly when it is not empty and its decoding has a character of the two
    ranges; the segment then holds the run and its terminator. *)
Lemma terminated_run_recorded_iff (pre run post : list byte) (s : TextSegment) :
  pre = [] ∨ last pre = Some x00 →
  Forall (λ b, b ≠ x00) run →
  (s ∈ text_segments (parse (pre ++ run ++ x00 :: post)) ∧
   seg_offset s = length pre)
  ↔ (run ≠ [] ∧ contains_japanese (decode run) = true ∧
     s = {| seg_offset := length pre; seg_length := S (length run);
            seg_original := run ++ [x00]; seg_text := decode run |}).
Proof.
  intros Hpre Hrun. cbn [text_segments parse].
  rewrite parse_loop_app by done. simpl (0 + _).
  set (fuel := length (pre ++ run ++ x00 :: post)).
  assert (Hfuel : fuel = S (length pre + length run + length post))
    by (subst fuel; rewrite !length_app; simpl; lia).
  rewrite Hfuel at 2. clearbody fuel.
  destruct run as [|b run'] eqn:Erun.
  - (* an empty run: nothing is recorded at this offset *)
    simpl app at 2. rewrite parse_loop_cons.
    change (read_segment (x00 :: post)) with ([x00], post). cbn [classify length].
    simpl app at 2. split; [|by intros [? _]].
    intros [[Hin|Hin]%elem_of_app Hoff]; exfalso.
    + apply list_elem_of_lookup in Hin as [j Hj].
      destruct (parse_loop_inv fuel [] pre) as [Hsegs _]. simpl in Hsegs.
      destruct (segments_from_lookup _ _ _ _ _ Hsegs Hj) as (_ & ? & Hend).
      unfold seg_end in Hend. lia.
    + apply list_elem_of_lookup in Hin as [j Hj].
      destruct (parse_loop_inv (length pre + 0 + length post) (pre ++ [x00]) post)
        as [Hsegs _].
      rewrite length_app in Hsegs. simpl (length [x00]) in Hsegs.
      destruct (segments_from_lookup _ _ _ _ _ Hsegs Hj) as (? & _). lia.
  - rewrite <- Erun in *. assert (Hne : run ≠ []) by (subst run; done).
    assert (Hlen : 0 < length run) by (destruct run; [done | simpl; lia]).
    destruct (run ++ x00 :: post) as [|c rest] eqn:Erest;
      [by destruct run|].
    rewrite parse_loop_cons, <- Erest, read_segment_terminated by done.
    assert (Hcl : classify (length pre) (run ++ [x00])
                  = if contains_japanese (decode run)
                    then [ {| seg_offset := length pre; seg_length := S (length run);
                              seg_original := run ++ [x00]; seg_text := decode run |} ]
                    else []).
    { unfold classify. rewrite length_app. simpl (length [x00]).
      replace (1 <? length run + 1) with true by (symmetry; apply Nat.ltb_lt; lia).
      replace (length run + 1 - 1) with (length run) by lia.
      unfold slice. rewrite drop_0, Nat.sub_0_r, take_app_length.
      replace (length run + 1) with (S (length run)) by lia.
      destruct run; [done | reflexivity]. }
    rewrite Hcl. clear Hcl.
    rewrite (length_app run), Nat.add_assoc. simpl (length [x00]). split.
    + intros [Hin Hoff]. split; [done|].
      apply elem_of_app in Hin as [Hin|Hin].
      { exfalso. apply list_elem_of_lookup in Hin as [j Hj].
        destruct (parse_loop_inv fuel [] pre) as [Hsegs _]. simpl in Hsegs.
        destruct (segments_from_lookup _ _ _ _ _ Hsegs Hj) as (_ & ? & Hend).
        unfold seg_end in Hend. lia. }
      apply elem_of_app in Hin as [Hin|Hin].
      { destruct (contains_japanese (decode run)); [|by apply elem_of_nil in Hin].
        by apply list_elem_of_singleton in Hin as ->. }
      exfalso. apply list_elem_of_lookup in Hin as [j Hj].
      destruct (parse_loop_inv (length pre + length run + length post)
                  (pre ++ run ++ [x00]) post) as [Hsegs _].
      rewrite !length_app in Hsegs. simpl (length [x00]) in Hsegs.
      rewrite Nat.add_assoc in Hsegs.
      destruct (segments_from_lookup _ _ _ _ _ Hsegs Hj) as (? & _). lia.
    + intros (_ & Hj & ->). rewrite Hj. split; [|done].
      apply elem_of_app. right. apply elem_of_app. left.
      by apply list_elem_of_singleton.
Qed.

(** Every segment of a parsed unit agrees with the retained snapshot: its raw
    bytes are the snapshot's bytes at its span, its length counts them, and
    its text decodes all of them but the last. *)
Lemma parse_segment_consistent data s :
  s ∈ text_segments (parse data) → segment_of (original_data (parse data)) s.
Proof.
  intros Hs. pose proof (parse_segment_of data) as Hall.
  rewrite Forall_forall in Hall. by apply Hall.
Qed.

(** C2. Rebuilding a parsed unit with no replacement texts returns the bytes
    of the unit, and prints nothing. *)
Theorem rebuild_parse_identity (unit_bytes : list byte) :
  rebuild (parse unit_bytes) None = (unit_bytes, []).
Proof. unfold rebuild, parse. cbn [original_data]. reflexivity. Qed.

(** C6. In a parsed unit the segments are in ascending order of offset and
    do not overlap: a segment ends at or before the offset of every later
    one. *)
Theorem parse_segments_sorted_disjoint (data : list byte) (i j : nat) (a b : TextSegment) :
  i < j →
  text_segments (parse data) !! i = Some a →
  text_segments (parse data) !! j = Some b →
  seg_offset a < seg_offset b ∧ seg_offset a + seg_length a ≤ seg_offset b.
Proof.
  intros Hij Ha Hb. pose proof (parse_segments_from data) as Hsegs.
  pose proof (segments_from_ordered _ _ _ _ _ _ _ Hsegs Hij Ha Hb) as Hord.
  destruct (segments_from_lookup _ _ _ _ _ Hsegs Ha) as (_ & Hlen & _).
  unfold seg_end in Hord. lia.
Qed.

(** C10. With an empty list of replacement texts, [rebuild] returns the
    snapshot of a container that has segments unchanged and prints no
    warning, exactly as it does without a list. *)
Theorem rebuild_empty_list (c : Container) :
  text_segments c ≠ [] →
  rebuild c (Some []) = (original_data c, []) ∧
  rebuild c (Some []) = rebuild c None.
Proof. intros _. split; reflexivity. Qed.

(** [rebuild] with replacement texts, on a parsed unit: the count warning
    when the counts differ, then the encoding failures; the bytes are those
    of [replaced_from]. *)
Lemma rebuild_replaces (data : list byte) (new_texts : list text) :
  let segments := text_segments (parse data) in
  new_texts ≠ [] →
  rebuild (parse data) (Some new_texts)
  = (replaced_from data 0 segments new_texts,
     (if decide (length new_texts = length segments) then []
      else [CountMismatch (length segments) (length new_texts)])
     ++ encode_errors (reverse (zip segments new_texts))).
Proof.
  intros segments Hne. pose proof (parse_segments_from data) as Hsegs.
  fold segments in Hsegs.
  destruct new_texts as [|t new_texts]; [done|].
  unfold rebuild. fold segments. cbn [original_data parse].
  rewrite rebuild_loop_zip by lia.
  rewrite take_ge by (rewrite length_zip; lia).
  by rewrite (replace_all_spec data segments _ 0) by (done || lia).
Qed.

(** C5, amended. Given at least one but fewer replacement texts than the
    parsed unit has segments, [rebuild] prints the count warning and returns
    the unit with only its first segments replaced, one per text, going from
    the last of them to the first; from the end of the last replaced segment
    on the result is the original data, so every further segment keeps its
    original bytes. *)
Theorem rebuild_fewer_texts (data : list byte) (new_texts : list text) :
  let c := parse data in
  let segments := text_segments c in
  new_texts ≠ [] → length new_texts < length segments →
  ∃ pre last,
    rebuild c (Some new_texts)
    = (replaced_from data 0 segments new_texts,
       CountMismatch (length segments) (length new_texts)
       :: encode_errors (reverse (zip segments new_texts))) ∧
    segments !! (length new_texts - 1) = Some last ∧
    replaced_from data 0 segments new_texts = pre ++ drop (seg_end last) data ∧
    ∀ j s, length new_texts ≤ j → segments !! j = Some s →
      seg_end last ≤ seg_offset s ∧
      slice (length pre + (seg_offset s - seg_end last))
            (length pre + (seg_offset s - seg_end last) + seg_length s)
            (replaced_from data 0 segments new_texts)
      = seg_original s.
Proof.
  intros c segments Hne Hlt.
  pose proof (parse_segments_from data) as Hsegs. fold c segments in Hsegs.
  destruct (replaced_from_tail data new_texts segments 0 Hne) as (pre & last & Hl & Htail);
    [lia|].
  exists pre, last. split_and!; try done.
  - subst c. rewrite rebuild_replaces by done. fold segments.
    destruct (decide _) as [Heq'|_]; [lia | done].
  - intros j s Hj Hs.
    assert (Hord : seg_end last ≤ seg_offset s).
    { apply (segments_from_ordered data segments 0 (length new_texts - 1) j
               last s Hsegs); [|done|done].
      destruct new_texts; [done | simpl in *; lia]. }
    split; [done|]. rewrite Htail.
    assert (Hin : s ∈ text_segments (parse data))
      by (eapply list_elem_of_lookup_2; exact Hs).
    destruct (parse_segment_consistent data s Hin) as (-> & _).
    cbn [original_data parse]. unfold slice.
    rewrite drop_app_add, drop_drop.
    replace (seg_end last + (seg_offset s - seg_end last)) with (seg_offset s) by lia.
    f_equal. lia.
Qed.

End WithCodec.

(** *** The codec of the samples *)

Import Samples.

Lemma parse_segments_sorted_disjoint_witness :
  let a := {| seg_offset := 0; seg_length := 3;
              seg_original := [x82; xa0; x00]; seg_text := [0x3042%N] |} in
  let b := {| seg_offset := 6; seg_length := 5;
              seg_original := [x82; xa2; x82; xa4; x00];
              seg_text := [0x3044%N; 0x3046%N] |} in
  seg_offset a < seg_offset b ∧ seg_offset a + seg_length a ≤ seg_offset b.
Proof.
  intros a b.
  apply (parse_segments_sorted_disjoint (H:=hiragana) two_segment_unit 0 1 a b);
    [lia | reflexivity | reflexivity].
Defined.

Lemma rebuild_empty_list_witness :
  let c := parse (H:=hiragana) two_segment_unit in
  rebuild (H:=hiragana) c (Some []) = (original_data c, []) ∧
  rebuild (H:=hiragana) c (Some []) = rebuild (H:=hiragana) c None.
Proof.
  intros c. apply (rebuild_empty_list (H:=hiragana) c). vm_compute. discriminate.
Defined.

(** C5, as stated, fails for an empty list of texts: it is fewer texts than
    the unit has segments, and no warning is printed. *)
Lemma rebuild_no_texts_no_warning :
  let c := parse (H:=hiragana) two_segment_unit in
  length ([] : list text) < length (text_segments c) ∧
  rebuild (H:=hiragana) c (Some []) = (two_segment_unit, []).
Proof. split; [vm_compute; lia | reflexivity]. Qed.

Lemma rebuild_fewer_texts_witness :
  let c := parse (H:=hiragana) two_segment_unit in
  let segments := text_segments c in
  let new_texts := [[0x3042%N; 0x3042%N]] in
  ∃ pre last,
    rebuild (H:=hiragana) c (Some new_texts)
    = (replaced_from (H:=hiragana) two_segment_unit 0 segments new_texts,
       CountMismatch (length segments) (length new_texts)
       :: encode_errors (H:=hiragana) (reverse (zip segments new_texts))) ∧
    segments !! (length new_texts - 1) = Some last ∧
    replaced_from (H:=hiragana) two_segment_unit 0 segments new_texts
    = pre ++ drop (seg_end last) two_segment_unit ∧
    ∀ j s, length new_texts ≤ j → segments !! j = Some s →
      seg_end last ≤ seg_offset s ∧
      slice (length pre + (seg_offset s - seg_end last))
            (length pre + (seg_offset s - seg_end last) + seg_length s)
            (replaced_from (H:=hiragana) two_segment_unit 0 segments new_texts)
      = seg_original s.
Proof.
  apply (rebuild_fewer_texts (H:=hiragana) two_segment_unit [[0x3042%N; 0x3042%N]]);
    [discriminate | vm_compute; lia].
Defined.

(** A text that cannot be encoded leaves its segment as it was and is
    reported; the other segment is replaced. *)
Example rebuild_unencodable_text :
  rebuild (H:=hiragana) (parse (H:=hiragana) two_segment_unit)
    (Some [[0x1F600%N]; [0x3042%N]])
  = ([x82; xa0; x00; x41; x42; x00; x82; xa0; x00], [EncodeError 0]).
Proof. reflexivity. Qed.

(** C4, at a unit whose last run has no terminator: the run is recorded as a
    segment although no null byte ends it. *)
Theorem parse_records_unterminated_run :
  text_segments (parse (H:=hiragana) unterminated_unit)
  = [ {| seg_offset := 0; seg_length := 3;
         seg_original := [x82; xa0; x78]; seg_text := [0x3042%N] |} ] ∧
  x00 ∉ unterminated_unit.
Proof.
  split; [reflexivity|].
  unfold unterminated_unit. rewrite !elem_of_cons, elem_of_nil.
  intros [|[|[|]]]; done.
Qed.

(** C9, at the same unit: the raw bytes of the segment hold no terminator,
    and its text is the decoding of the raw bytes without their last byte,
    not of the raw bytes. *)
Theorem parse_unterminated_text_drops_byte :
  ∃ s, text_segments (parse (H:=hiragana) unterminated_unit) = [s] ∧
       seg_original s = [x82; xa0; x78] ∧
       seg_text s = decode (Codec:=hiragana) [x82; xa0] ∧
       seg_text s = [0x3042%N] ∧
       decode (Codec:=hiragana) (seg_original s) = [0x3042%N; 0x78%N].
Proof. eexists. split; [reflexivity|]. split_and!; reflexivity. Qed.

End SCFFacts.

(** ** The index table and the block archive *)

Module SDKFacts.
Import PFT SDK Samples.

Lemma string_length_app (s t : string) :
  String.length (s +:+ t) = String.length s + String.length t.
Proof. induction s as [|c s IH]; simpl; [done | by rewrite IH]. Qed.

Lemma scf_path_inj (a b : string) : scf_path a = scf_path b → a = b.
Proof.
  unfold scf_path. revert b.
  induction a as [|c a IH]; intros [|c' b] Heq; simpl in Heq.
  - done.
  - apply (f_equal String.length) in Heq. simpl in Heq.
    rewrite string_length_app in Heq. simpl in Heq. lia.
  - apply (f_equal String.length) in Heq. simpl in Heq.
    rewrite string_length_app in Heq. simpl in Heq. lia.
  - injection Heq as -> Heq. f_equal. by apply IH.
Qed.

(** *** Slice assignment *)

Lemma length_assign_slice {A} (a : nat) (new l : list A) :
  a ≤ length l →
  length (assign_slice a (a + length new) new l)
  = Nat.max (length l) (a + length new).
Proof.
  intros Ha. unfold assign_slice.
  rewrite !length_app, length_take, length_drop. lia.
Qed.

Lemma lookup_assign_slice {A} (a p : nat) (new l : list A) :
  a + length new ≤ length l →
  assign_slice a (a + length new) new l !! p
  = if decide (a ≤ p < a + length new) then new !! (p - a) else l !! p.
Proof.
  intros Ha. unfold assign_slice. rewrite Nat.max_r by lia.
  assert (Hl : length (take a l) = a) by (rewrite length_take; lia).
  destruct (decide (p < a)) as [Hp|Hp].
  - rewrite lookup_app_l by lia. rewrite lookup_take_lt by lia.
    case_decide; [lia | done].
  - rewrite lookup_app_r by lia. rewrite Hl.
    destruct (decide (p - a < length new)) as [Hq|Hq].
    + rewrite lookup_app_l by lia. case_decide; [done | lia].
    + rewrite lookup_app_r by lia. rewrite lookup_drop.
      case_decide; [lia|]. f_equal. lia.
Qed.

(** *** [unpack] *)

Lemma filter_all {A} (P : A → Prop) `{∀ x, Decision (P x)} (l : list A) :
  Forall P l → filter P l = l.
Proof.
  induction 1 as [|x l Hx Hl IH]; [done|].
  rewrite filter_cons, decide_True by done. by rewrite IH.
Qed.

Lemma has_char_app (c : Ascii.ascii) (s t : string) :
  has_char c (s +:+ t) = has_char c s || has_char c t.
Proof. induction s as [|c' s IH]; simpl; [done|]. by rewrite IH, orb_assoc. Qed.

Lemma split_path_plain (s : string) :
  has_char "/"%char s = false → split_path s = ([], s).
Proof.
  induction s as [|c s IH]; cbn [has_char split_path]; [done|].
  intros [Hc Hs]%orb_false_elim. rewrite (IH Hs).
  destruct (Ascii.eqb_spec c "/"%char) as [->|Hne]; [|done].
  by rewrite Ascii.eqb_refl in Hc.
Qed.

(** A plain name leads to the file of that name in the output directory. *)
Lemma target_plain (name : string) :
  plain_name name → target name = InDirectory (scf_path name).
Proof.
  intros (Hnul & Hslash & Hlen). unfold target.
  assert (Hnul' : has_char "000"%char (scf_path name) = false)
    by (unfold scf_path; rewrite has_char_app, Hnul; reflexivity).
  assert (Hslash' : has_char "/"%char (scf_path name) = false)
    by (unfold scf_path; rewrite has_char_app, Hslash; reflexivity).
  rewrite Hnul'. cbn zeta.
  rewrite (split_path_plain _ Hslash'). cbn [walk].
  destruct (NAME_MAX <? name_bytes (scf_path name)) eqn:Hlong;
    [apply Nat.ltb_lt in Hlong; lia|].
  destruct (scf_path name) as [|c rest] eqn:Hpath; [done|].
  cbn [has_char] in Hslash'. apply orb_false_elim in Hslash' as [Hc _].
  destruct (Ascii.eqb_spec "/"%char c) as [<-|Hne]; [done|].
  destruct c as [[] [] [] [] [] [] [] []]; try done.
Qed.

Lemma unpack_step_plain archive_data st (e : Entry) :
  (entry_end e ≤ length archive_data → plain_name e.1.1) →
  unpack_step archive_data st e = inr (extract_step archive_data st e).
Proof.
  destruct st as [[dir n] log], e as [[name idx] size]. intros Hplain.
  unfold unpack_step, extract_step.
  destruct (_ <=? _)%N eqn:Hr; [|done].
  rewrite target_plain; [done|]. apply Hplain.
  apply N.leb_le in Hr. unfold entry_end. cbn [fst snd]. lia.
Qed.

(** With plain names for the entries within bounds the loop runs to its
    end. *)
Lemma unpack_loop_plain archive_data entries : ∀ st,
  (∀ e, e ∈ entries → entry_end e ≤ length archive_data → plain_name e.1.1) →
  unpack_loop archive_data entries st = inr (foldl (extract_step archive_data) st entries).
Proof.
  induction entries as [|e entries IH]; intros st Hplain; [done|].
  cbn [unpack_loop foldl].
  rewrite unpack_step_plain by (apply Hplain; by left).
  apply IH. intros e' He'. apply Hplain. by right.
Qed.

Lemma unpack_fold archive_data entries : ∀ dir extracted log,
  ∃ dir' extracted',
    foldl (extract_step archive_data) (dir, extracted, log) entries
    = (dir', extracted', log ++ (unpack_event archive_data <$> entries)).
Proof.
  induction entries as [|[[name idx] size] entries IH]; intros dir extracted log.
  - exists dir, extracted. simpl. by rewrite app_nil_r.
  - cbn [foldl extract_step unpack_event fmap list_fmap].
    destruct (_ <=? _)%N.
    + edestruct IH as (dir' & extracted' & ->).
      exists dir', extracted'. by rewrite <- app_assoc.
    + edestruct IH as (dir' & extracted' & ->).
      exists dir', extracted'. by rewrite <- app_assoc.
Qed.

Lemma unpack_log entries archive_data output_dir :
  (foldl (extract_step archive_data) (output_dir, 0, []) entries).2
  = unpack_event archive_data <$> entries.
Proof.
  destruct (unpack_fold archive_data entries output_dir 0 []) as (? & ? & ->).
  reflexivity.
Qed.

(** The count [unpack] returns is the number of files it wrote. *)
Lemma unpack_count archive_data entries : ∀ dir extracted log,
  (foldl (extract_step archive_data) (dir, extracted, log) entries).1.2
  = extracted + length (filter (λ e, entry_end e ≤ length archive_data) entries).
Proof.
  induction entries as [|[[name idx] size] entries IH]; intros dir extracted log.
  - simpl. lia.
  - cbn [foldl extract_step]. rewrite filter_cons.
    unfold entry_end at 1. cbn [fst snd]. unfold BLOCK_SIZE.
    destruct (_ <=? _)%N eqn:Hr.
    + apply N.leb_le in Hr. rewrite IH.
      destruct (decide _); [simpl; lia | lia].
    + apply N.leb_gt in Hr. rewrite IH.
      destruct (decide _); lia.
Qed.

(** A file that no entry within bounds is written to stays as it is. *)
Lemma unpack_fold_frame (archive : list byte) (entries : list Entry) (path : string) :
  ∀ st,
  (∀ e, e ∈ entries → entry_end e ≤ length archive → scf_path e.1.1 ≠ path) →
  (foldl (extract_step archive) st entries).1.1 !! path = st.1.1 !! path.
Proof.
  induction entries as [|[[name idx] size] entries IH]; intros [[dir n] log] Hother;
    [done|].
  cbn [foldl extract_step].
  destruct (_ <=? _)%N eqn:Hr.
  - rewrite IH by (intros e He; apply Hother; by right). cbn [fst].
    apply lookup_insert_ne. apply (Hother (name, idx, size)); [by left|].
    apply N.leb_le in Hr. unfold entry_end. cbn [fst snd]. lia.
  - rewrite IH by (intros e He; apply Hother; by right). done.
Qed.

(** The file of an entry within bounds holds the bytes of its span, unless a
    later entry within bounds has the same name. *)
Lemma unpack_fold_written archive_data (before after : list Entry) (e : Entry) st :
  entry_end e ≤ length archive_data →
  (∀ e', e' ∈ after → entry_end e' ≤ length archive_data → e'.1.1 ≠ e.1.1) →
  (foldl (extract_step archive_data) st (before ++ e :: after)).1.1 !! scf_path e.1.1
  = Some (slice (entry_offset e) (entry_end e) archive_data).
Proof.
  intros Hend Hlater. rewrite foldl_app. cbn [foldl].
  rewrite unpack_fold_frame.
  - destruct (foldl _ st before) as [[dir n] log], e as [[name idx] size].
    unfold extract_step, entry_offset, entry_end in *. cbn [fst snd] in *.
    destruct (_ <=? _)%N eqn:Hr; [|apply N.leb_gt in Hr; lia].
    cbn [fst]. by rewrite lookup_insert_eq.
  - intros e' He' Hend' Heq%scf_path_inj. by apply (Hlater e' He' Hend').
Qed.

Lemma unpack_dir_lookup archive_data entries : ∀ st e,
  NoDup (entries.*1.*1) → e ∈ entries →
  entry_end e ≤ length archive_data →
  (foldl (extract_step archive_data) st entries).1.1 !! scf_path e.1.1
  = Some (slice (entry_offset e) (entry_end e) archive_data).
Proof.
  intros st e Hnd Hin Hend.
  apply list_elem_of_split in Hin as (before & after & ->).
  apply unpack_fold_written; [done|].
  intros e' He' _ Heq.
  rewrite !fmap_app, !fmap_cons in Hnd.
  apply NoDup_app in Hnd as (_ & _ & Hnd). apply NoDup_cons in Hnd as [Hfresh _].
  apply Hfresh. rewrite <- Heq.
  apply list_elem_of_fmap. exists e'.1. split; [done|].
  apply list_elem_of_fmap. by exists e'.
Qed.


(** C7, amended. When the entries within bounds have plain names, [unpack]
    handles every entry of the batch, in order, and returns.  An entry whose
    span [idx * 2048 + size] exceeds the archive length is reported as out of
    range and nothing is written for it: if no entry within bounds has its
    name, the file of that name is as it was before.  For an entry within
    bounds the file named after it is written with exactly the [size] bytes
    of the archive from offset [idx * 2048] on, and the directory holds the
    file with these bytes afterwards unless a later entry within bounds has
    the same name. *)
Theorem unpack_entry_outcome (entries : list Entry) (archive_data : list byte)
    (output_dir : gmap string (list byte)) (k : nat) (name : string) (idx size : N) :
  (∀ e, e ∈ entries → entry_end e ≤ length archive_data → plain_name e.1.1) →
  entries !! k = Some (name, idx, size) →
  let offset := (idx * 2048)%N in
  let archive_size := N.of_nat (length archive_data) in
  ∃ dir extracted log,
    unpack entries archive_data output_dir = inr (dir, extracted, log) ∧
    length log = length entries ∧
    ((archive_size < offset + size)%N →
       log !! k = Some (OutOfRange name idx offset size archive_size) ∧
       ((∀ e, e ∈ entries → entry_end e ≤ length archive_data → e.1.1 ≠ name) →
        dir !! scf_path name = output_dir !! scf_path name)) ∧
    ((offset + size ≤ archive_size)%N →
       ∃ scf_data,
         log !! k = Some (WriteFile (scf_path name) scf_data) ∧
         length scf_data = N.to_nat size ∧
         (∀ j, j < N.to_nat size →
               scf_data !! j = archive_data !! (N.to_nat offset + j)) ∧
         ((∀ j e, k < j → entries !! j = Some e →
                  entry_end e ≤ length archive_data → e.1.1 ≠ name) →
          dir !! scf_path name = Some scf_data)).
Proof.
  intros Hplain Hk offset archive_size.
  unfold unpack. rewrite unpack_loop_plain by done.
  set (final := foldl (extract_step archive_data) (output_dir, 0, []) entries).
  exists final.1.1, final.1.2, final.2.
  split; [by destruct final as [[? ?] ?]|].
  assert (Hlog : final.2 = unpack_event archive_data <$> entries)
    by apply unpack_log.
  rewrite Hlog, length_fmap, list_lookup_fmap, Hk.
  cbn [fmap option_fmap option_map].
  unfold unpack_event, BLOCK_SIZE. fold offset archive_size.
  split_and!; [done | |].
  - intros Hout. pose proof Hout as Hout'. apply N.leb_gt in Hout'. rewrite Hout'.
    split; [done|]. intros Hnone. subst final.
    rewrite unpack_fold_frame; [done|].
    intros e He Hend Heq%scf_path_inj. by apply (Hnone e He Hend).
  - intros Hin. pose proof Hin as Hin'. apply N.leb_le in Hin'. rewrite Hin'.
    eexists. split; [done|].
    replace (N.to_nat (offset + size)) with (N.to_nat offset + N.to_nat size) by lia.
    split; [|split].
    + apply slice_length_in_range. subst archive_size. lia.
    + intros j Hj. by apply slice_lookup.
    + intros Hlater. subst final.
      rewrite <- (take_drop_middle entries k (name, idx, size)) by done.
      pose proof (unpack_fold_written archive_data (take k entries)
                    (drop (S k) entries) (name, idx, size) (output_dir, 0, [])) as Hw.
      unfold entry_end, entry_offset, BLOCK_SIZE in Hw. cbn [fst snd] in Hw.
      rewrite Hw.
      * f_equal. f_equal. lia.
      * subst archive_size offset. lia.
      * intros e' He' Hend'. apply list_elem_of_lookup in He' as [j Hj].
        rewrite lookup_drop in Hj.
        apply (Hlater (S k + j) e'); [lia | done |].
        unfold entry_end, BLOCK_SIZE. lia.
Qed.

Lemma sparse_names_plain (e : Entry) : e ∈ sparse_entries → plain_name e.1.1.
Proof.
  unfold sparse_entries. rewrite !elem_of_cons, elem_of_nil.
  intros [-> | [-> | []]]; (split; [reflexivity|]; split; [reflexivity|]);
    vm_compute; lia.
Qed.

Lemma unpack_entry_outcome_witness :
  let offset := (5 * 2048)%N in
  let archive_size := N.of_nat (length sparse_archive) in
  ∃ dir extracted log,
    unpack sparse_entries sparse_archive ∅ = inr (dir, extracted, log) ∧
    length log = length sparse_entries ∧
    ((archive_size < offset + 50)%N →
       log !! 1 = Some (OutOfRange "SCN003" 5 offset 50 archive_size) ∧
       ((∀ e, e ∈ sparse_entries → entry_end e ≤ length sparse_archive →
              e.1.1 ≠ "SCN003"%string) →
        dir !! scf_path "SCN003" = (∅ : gmap string (list byte)) !! scf_path "SCN003")) ∧
    ((offset + 50 ≤ archive_size)%N →
       ∃ scf_data,
         log !! 1 = Some (WriteFile (scf_path "SCN003") scf_data) ∧
         length scf_data = N.to_nat 50 ∧
         (∀ j, j < N.to_nat 50 →
               scf_data !! j = sparse_archive !! (N.to_nat offset + j)) ∧
         ((∀ j e, 1 < j → sparse_entries !! j = Some e →
                  entry_end e ≤ length sparse_archive → e.1.1 ≠ "SCN003"%string) →
          dir !! scf_path "SCN003" = Some scf_data)).
Proof.
  apply (unpack_entry_outcome sparse_entries sparse_archive ∅ 1 "SCN003" 5 50).
  - intros e He _. by apply sparse_names_plain.
  - reflexivity.
Defined.

(** C7, as stated, fails at an index whose first name holds a null
    character: [read] returns the name, the entry lies within bounds, and
    [open] raises at it.  No file is written for the entry, the entry after
    it, which is out of range, is never reported, and no count is
    returned. *)
Lemma unpack_aborts_on_null_name :
  read nul_index = inr (take 16 nul_index, nul_entries) ∧
  nul_entries !! 0 = Some (String "A"%char (String "000"%char (String "B"%char EmptyString)), 0%N, 1%N) ∧
  (0 * 2048 + 1 ≤ N.of_nat (length ones_archive))%N ∧
  nul_entries !! 1 = Some ("C"%string, 9%N, 1%N) ∧
  (N.of_nat (length ones_archive) < 9 * 2048 + 1)%N ∧
  unpack nul_entries ones_archive ∅ = inl (Raises EmbeddedNull, ∅, []) ∧
  unpack_archive nul_index ones_archive ∅ = inr (inl (Raises EmbeddedNull, ∅, [])).
Proof.
  assert (Hread : read nul_index = inr (take 16 nul_index, nul_entries))
    by (vm_compute; reflexivity).
  split; [exact Hread|]. split; [reflexivity|].
  split; [vm_compute; discriminate|]. split; [reflexivity|].
  split; [vm_compute; reflexivity|].
  assert (Hun : unpack nul_entries ones_archive ∅ = inl (Raises EmbeddedNull, ∅, []))
    by reflexivity.
  split; [exact Hun|]. unfold unpack_archive. by rewrite Hread, Hun.
Qed.

(** The end-to-end example: two files, of 100 and of 50 bytes, cut at offsets
    0 and 10240; the entry that does not fit is reported instead. *)
Example unpack_sparse_archive :
  unpack sparse_entries sparse_archive ∅
  = inr ({[ scf_path "SCN002" := replicate 100 x01;
            scf_path "SCN003" := replicate 50 x02 ]}, 2,
         [WriteFile (scf_path "SCN002") (replicate 100 x01);
          WriteFile (scf_path "SCN003") (replicate 50 x02)]).
Proof.
  unfold unpack. rewrite unpack_loop_plain by (intros e He _; by apply sparse_names_plain).
  reflexivity.
Qed.

Example unpack_out_of_range :
  unpack long_entries ones_archive ∅ = inr (∅, 0, [OutOfRange "A" 0 0 3000 2048]).
Proof. reflexivity. Qed.

(** A name with a slash leads below the output directory, where there is
    nothing: [open] raises.  A name that starts with [./] leads to the same
    file as the name without it. *)
Example unpack_slash_names :
  unpack [("a/b"%string, 0%N, 1%N)] ones_archive ∅ = inl (Raises FileNotFound, ∅, []) ∧
  target "./A" = target "A" ∧
  target "/A" = Elsewhere ∧ target "../A" = Elsewhere.
Proof. split_and!; reflexivity. Qed.

(** *** [repack] *)

(** Packing units that were cut from [archive] at the spans of their entries
    into a buffer as long as [archive]: every byte of the result is the byte
    of [archive], or is the byte of the buffer at a position outside every
    span. *)
Lemma repack_fold_cut (archive : list byte) (dir : gmap string (list byte))
    (entries : list Entry) : ∀ buf new_entries log,
  length buf = length archive →
  (∀ e, e ∈ entries →
        entry_end e ≤ length archive ∧
        dir !! scf_path e.1.1 = Some (slice (entry_offset e) (entry_end e) archive)) →
  ∃ buf',
    foldl (repack_step dir) (buf, new_entries, log) entries
    = (buf', new_entries ++ entries, log) ∧
    length buf' = length archive ∧
    ∀ p, buf' !! p = archive !! p ∨
         (buf' !! p = buf !! p ∧ ∀ e, e ∈ entries → ¬ in_span p e).
Proof.
  induction entries as [|[[name idx] size] entries IH];
    intros buf new_entries log Hlen Hall.
  - exists buf. rewrite app_nil_r. split_and!; [done..|].
    intros p. right. split; [done|]. by intros e ?%elem_of_nil.
  - destruct (Hall (name, idx, size)) as [Hend Hdir]; [by left|].
    unfold entry_end, entry_offset in Hend, Hdir. cbn [fst snd] in Hend, Hdir.
    set (off := N.to_nat (idx * BLOCK_SIZE)) in *.
    set (unit_data := slice off (N.to_nat (idx * BLOCK_SIZE + size)) archive) in *.
    assert (Hsize : length unit_data = N.to_nat size).
    { subst unit_data.
      replace (N.to_nat (idx * BLOCK_SIZE + size)) with (off + N.to_nat size)
        by (subst off; lia).
      apply slice_length_in_range. subst off. lia. }
    cbn [foldl repack_step]. rewrite Hdir. fold off.
    replace (N.to_nat (idx * BLOCK_SIZE + N.of_nat (length unit_data)))
      with (off + length unit_data) by (subst off; lia).
    replace (N.of_nat (length unit_data)) with size by lia.
    destruct (IH (assign_slice off (off + length unit_data) unit_data buf)
                 (new_entries ++ [(name, idx, size)]) log)
      as (buf' & Hfold & Hlen' & Hbytes).
    { rewrite length_assign_slice by (subst off; lia). subst off. lia. }
    { intros e He. apply Hall. by right. }
    exists buf'. rewrite Hfold, <- app_assoc. split_and!; [done..|].
    intros p. destruct (Hbytes p) as [Hp | [Hp Hnot]]; [by left|].
    rewrite lookup_assign_slice in Hp by (subst off; lia).
    destruct (decide (off ≤ p < off + length unit_data)) as [Hspan|Hspan].
    + left. rewrite Hp. subst unit_data.
      replace (N.to_nat (idx * BLOCK_SIZE + size)) with (off + N.to_nat size)
        by (subst off; lia).
      rewrite slice_lookup by lia. f_equal. lia.
    + right. split; [done|]. intros e [-> | He]%elem_of_cons; [|by apply Hnot].
      unfold in_span, entry_offset, entry_end. cbn [fst snd]. fold off. lia.
Qed.



(** C1, amended. For entries with plain, pairwise distinct names that all
    lie within an archive of [(max(idx) + 1) * 2048] bytes whose bytes outside
    every entry's span are zero, [unpack] returns, having extracted every
    entry, and repacking the directory it leaves gives back the archive byte
    for byte, with the same entries and no warning. *)
Theorem repack_unpack_roundtrip (entries : list Entry) (archive : list byte)
    (output_dir : gmap string (list byte)) (max_blk : N) :
  max_block entries = inr max_blk →
  length archive = N.to_nat ((max_blk + 1) * BLOCK_SIZE) →
  NoDup (entries.*1.*1) →
  (∀ e, e ∈ entries → plain_name e.1.1) →
  (∀ e, e ∈ entries → entry_end e ≤ length archive) →
  (∀ p, p < length archive → (∀ e, e ∈ entries → ¬ in_span p e) →
        archive !! p = Some x00) →
  ∃ dir log,
    unpack entries archive output_dir = inr (dir, length entries, log) ∧
    repack entries dir = inr (archive, entries, []).
Proof.
  intros Hmax Hlen Hnd Hplain Hrange Hzero.
  unfold unpack. rewrite unpack_loop_plain by (intros e He _; by apply Hplain).
  set (final := foldl (extract_step archive) (output_dir, 0, []) entries).
  assert (Hcount : final.1.2 = length entries).
  { subst final. rewrite unpack_count. rewrite filter_all; [done|].
    apply Forall_forall. intros e He. by apply Hrange. }
  exists final.1.1, final.2. split.
  { rewrite <- Hcount. by destruct final as [[? ?] ?]. }
  unfold repack. rewrite Hmax. f_equal.
  set (zeros := replicate (N.to_nat ((max_blk + 1) * BLOCK_SIZE)) x00).
  assert (Hzlen : length zeros = length archive)
    by (subst zeros; rewrite length_replicate; lia).
  destruct (repack_fold_cut archive final.1.1
              entries zeros [] [] Hzlen) as (buf' & -> & Hlen' & Hbytes).
  { intros e He. split; [by apply Hrange|].
    apply unpack_dir_lookup; auto. }
  f_equal. f_equal. apply list_eq. intros p.
  destruct (Hbytes p) as [Hp | [Hp Hnot]]; [done|].
  rewrite Hp. destruct (decide (p < length archive)) as [Hlt|Hge].
  - rewrite (Hzero p Hlt Hnot). subst zeros.
    apply lookup_replicate_2. lia.
  - rewrite !lookup_ge_None_2 by lia. done.
Qed.

Lemma sparse_archive_zero_gaps (p : nat) :
  p < length sparse_archive →
  (∀ e, e ∈ sparse_entries → ¬ in_span p e) →
  sparse_archive !! p = Some x00.
Proof.
  unfold sparse_archive, sparse_entries. rewrite !length_app, !length_replicate.
  intros Hp Hnot.
  assert (H1 : ¬ in_span p ("SCN002"%string, 0%N, 100%N))
    by (apply Hnot; rewrite !elem_of_cons; auto).
  assert (H2 : ¬ in_span p ("SCN003"%string, 5%N, 50%N))
    by (apply Hnot; rewrite !elem_of_cons; auto).
  unfold in_span, entry_offset, entry_end, BLOCK_SIZE in H1, H2. cbn [fst snd] in H1, H2.
  rewrite lookup_app_r by (rewrite length_replicate; lia).
  rewrite length_replicate.
  destruct (decide (p < N.to_nat 10240)) as [Hlt|Hge].
  - rewrite lookup_app_l by (rewrite length_replicate; lia).
    apply lookup_replicate_2. lia.
  - rewrite lookup_app_r by (rewrite length_replicate; lia).
    rewrite lookup_app_r by (rewrite !length_replicate; lia).
    apply lookup_replicate_2. rewrite !length_replicate. lia.
Qed.

Lemma repack_unpack_roundtrip_witness :
  ∃ dir log,
    unpack sparse_entries sparse_archive ∅ = inr (dir, length sparse_entries, log) ∧
    repack sparse_entries dir = inr (sparse_archive, sparse_entries, []).
Proof.
  apply (repack_unpack_roundtrip sparse_entries sparse_archive ∅ 5%N).
  - reflexivity.
  - unfold sparse_archive. rewrite !length_app, !length_replicate. reflexivity.
  - cbn. apply NoDup_cons. split; [|apply NoDup_singleton].
    intros Hin%list_elem_of_singleton. discriminate.
  - exact sparse_names_plain.
  - unfold sparse_archive, sparse_entries. rewrite !length_app, !length_replicate.
    intros e. rewrite !elem_of_cons, elem_of_nil.
    intros [-> | [-> | []]]; unfold entry_end, BLOCK_SIZE; cbn [fst snd]; lia.
  - apply sparse_archive_zero_gaps.
Defined.

(** C1, as stated, fails when an entry reaches past the end of the archive:
    [unpack] skips it, [repack] finds no unit for it, and the bytes of its
    span come back as zeros. *)
Lemma roundtrip_fails_out_of_range :
  max_block long_entries = inr 0%N ∧
  length ones_archive = N.to_nat ((0 + 1) * BLOCK_SIZE) ∧
  (∀ p, p < length ones_archive →
        (∀ e, e ∈ long_entries → ¬ in_span p e) → ones_archive !! p = Some x00) ∧
  ∃ dir extracted log out,
    unpack long_entries ones_archive ∅ = inr (dir, extracted, log) ∧
    repack long_entries dir = inr out ∧
    out.1.1 !! 0 = Some x00 ∧ ones_archive !! 0 = Some x01 ∧
    out.1.1 ≠ ones_archive.
Proof.
  split; [reflexivity|]. split; [reflexivity|]. split.
  - unfold ones_archive, long_entries. rewrite length_replicate.
    intros p Hp Hnot. exfalso. apply (Hnot ("A"%string, 0%N, 3000%N)).
    + by apply list_elem_of_singleton.
    + unfold in_span, entry_offset, entry_end, BLOCK_SIZE. cbn [fst snd]. lia.
  - do 4 eexists. split; [reflexivity|]. split; [vm_compute; reflexivity|].
    split; [reflexivity|]. split; [reflexivity|].
    intros Heq. apply (f_equal (λ l, l !! 0)) in Heq. discriminate Heq.
Qed.

(** It also fails when two entries share a name: the second unit overwrites
    the file of the first, and [repack] writes it into both blocks. *)
Lemma roundtrip_fails_shared_name :
  max_block twin_entries = inr 1%N ∧
  length twin_archive = N.to_nat ((1 + 1) * BLOCK_SIZE) ∧
  (∀ e, e ∈ twin_entries → entry_end e ≤ length twin_archive) ∧
  ∃ dir extracted log out,
    unpack twin_entries twin_archive ∅ = inr (dir, extracted, log) ∧
    repack twin_entries dir = inr out ∧
    out.1.1 !! 0 = Some x02 ∧ twin_archive !! 0 = Some x01.
Proof.
  split; [reflexivity|]. split; [reflexivity|]. split.
  - unfold twin_entries. intros e. rewrite !elem_of_cons, elem_of_nil.
    intros [-> | [-> | []]]; vm_compute; lia.
  - do 4 eexists. split; [vm_compute; reflexivity|].
    split; [vm_compute; reflexivity|]. split; reflexivity.
Qed.

(** C3, at a replacement unit of 2049 bytes for the only block of an archive:
    the archive [repack] produces is 2049 bytes long, not the 2048 bytes of
    the buffer it allocated. *)
Theorem repack_oversized_unit_grows :
  max_block short_entries = inr 0%N ∧
  N.to_nat ((0 + 1) * BLOCK_SIZE) = 2048 ∧
  ∃ out, repack short_entries big_unit_dir = inr out ∧ length out.1.1 = 2049.
Proof.
  split; [reflexivity|]. split; [reflexivity|].
  eexists. split; [vm_compute; reflexivity|]. reflexivity.
Qed.

(** *** [PFTParser.read] *)

Lemma unpack_header_inr (buf : list byte) v :
  unpack_header buf = inr v → length buf = 16.
Proof.
  do 16 (destruct buf as [|? buf]; [discriminate|]).
  destruct buf; [reflexivity | discriminate].
Qed.

Lemma unpack_header_cases (buf : list byte) :
  unpack_header buf = inl StructError ∨ ∃ v, unpack_header buf = inr v.
Proof.
  do 16 (destruct buf as [|? buf]; [by left|]).
  destruct buf; [right; by eexists | by left].
Qed.

(** C8. Reading an index of fewer than 16 bytes fails with the error of
    [struct.unpack]; no entries are returned. *)
Theorem read_short_input_fails (data : list byte) :
  length data < 16 → PFT.read data = inl StructError.
Proof.
  intros Hlen. unfold PFT.read.
  destruct (unpack_header_cases (slice 0 16 data)) as [-> | [v Hh]]; [reflexivity|].
  apply unpack_header_inr in Hh. unfold slice in Hh.
  rewrite length_take, length_drop in Hh. lia.
Qed.

Lemma read_short_input_fails_witness :
  PFT.read [x10; x00; x00; x08] = inl StructError.
Proof. apply (read_short_input_fails [x10; x00; x00; x08]). simpl. lia. Defined.

(** An index of at least 16 bytes is read without error. *)
Lemma read_long_input_succeeds (data : list byte) :
  16 ≤ length data →
  PFT.read data = inr (take 16 data, read_entries (drop 16 data)).
Proof.
  intros Hlen. unfold PFT.read, slice. rewrite drop_0, Nat.sub_0_r.
  do 16 (destruct data as [|? data]; [simpl in Hlen; lia|]).
  reflexivity.
Qed.

Example read_sparse_index :
  PFT.read sparse_index = inr (take 16 sparse_index, sparse_entries).
Proof. reflexivity. Qed.

End SDKFacts.

(** ** Writing and reading the index table *)

Module PFTFacts.
Import PFT.

Lemma to_N_byte_of_N (n : N) : to_N (byte_of_N n) = (n mod 256)%N.
Proof.
  unfold byte_of_N. destruct (of_N (n mod 256)) as [b|] eqn:Hb; simpl.
  - by apply to_of_N.
  - apply of_N_None_iff in Hb. exfalso.
    zify. Z.to_euclidean_division_equations. lia.
Qed.

Lemma to_N_lt_256 (b : byte) : (to_N b < 256)%N.
Proof. pose proof (to_N_bounded b). lia. Qed.

Lemma le_u32_bound b0 b1 b2 b3 : (le_u32 b0 b1 b2 b3 < 4294967296)%N.
Proof.
  unfold le_u32.
  pose proof (to_N_lt_256 b0). pose proof (to_N_lt_256 b1).
  pose proof (to_N_lt_256 b2). pose proof (to_N_lt_256 b3). lia.
Qed.

(** Packing a 32-bit number and reading the four bytes gives it back. *)
Lemma pack_u32_le_u32 (n : N) :
  (n < 4294967296)%N →
  ∃ b0 b1 b2 b3, pack_u32 n = inr [b0; b1; b2; b3] ∧ le_u32 b0 b1 b2 b3 = n.
Proof.
  intros Hn. unfold pack_u32.
  replace (n <? 4294967296)%N with true by (symmetry; by apply N.ltb_lt).
  eexists _, _, _, _. split; [reflexivity|].
  unfold le_u32. rewrite !to_N_byte_of_N.
  zify. Z.to_euclidean_division_equations. lia.
Qed.

Lemma pack_u32_inr (n : N) bs :
  pack_u32 n = inr bs → (n < 4294967296)%N ∧ length bs = 4.
Proof.
  unfold pack_u32. destruct (n <? 4294967296)%N eqn:Hn; [|done].
  intros [= <-]. split; [by apply N.ltb_lt | done].
Qed.

Lemma pack_u32_inl (n : N) err :
  pack_u32 n = inl err → (4294967296 ≤ n)%N ∧ err = PackError.
Proof.
  unfold pack_u32. destruct (n <? 4294967296)%N eqn:Hn; [done|].
  intros [= <-]. split; [by apply N.ltb_ge | done].
Qed.

(** *** Names *)

Lemma rstrip_nul_nuls (k : nat) : rstrip_nul (replicate k x00) = [].
Proof. induction k as [|k IH]; [done|]. simpl. by rewrite IH. Qed.

Lemma rstrip_nul_keeps (l : list byte) :
  last l ≠ Some x00 → rstrip_nul l = l.
Proof.
  induction l as [|b l IH]; [done|]. intros Hlast. simpl.
  destruct l as [|c l].
  - simpl. destruct (is_nul b) eqn:Hb; [|done].
    apply is_nul_true in Hb as ->. by destruct Hlast.
  - rewrite last_cons_cons in Hlast. rewrite IH by done. done.
Qed.

Lemma rstrip_nul_app_nuls (l : list byte) (k : nat) :
  rstrip_nul (l ++ replicate k x00) = rstrip_nul l.
Proof.
  induction l as [|b l IH]; simpl.
  - apply rstrip_nul_nuls.
  - by rewrite IH.
Qed.

(** What [str.rstrip] leaves does not end with a null. *)
Lemma rstrip_nul_last (l : list byte) : last (rstrip_nul l) ≠ Some x00.
Proof.
  induction l as [|b l IH]; [done|]. simpl.
  destruct (rstrip_nul l) as [|c r] eqn:Hr.
  - destruct (is_nul b) eqn:Hb; [done|]. simpl.
    apply is_nul_false in Hb. congruence.
  - by rewrite last_cons_cons.
Qed.

Lemma rstrip_nul_length (l : list byte) : length (rstrip_nul l) ≤ length l.
Proof.
  induction l as [|b l IH]; [done|]. simpl.
  destruct (rstrip_nul l) as [|c r]; [destruct (is_nul b)|]; simpl in *; lia.
Qed.

Lemma rstrip_nul_Forall (P : byte → Prop) (l : list byte) :
  Forall P l → Forall P (rstrip_nul l).
Proof.
  induction 1 as [|b l Hb Hl IH]; [done|]. simpl.
  destruct (rstrip_nul l) as [|c r]; [destruct (is_nul b)|]; auto.
Qed.

Lemma forallb_ascii (l : list byte) :
  forallb (λ b, (to_N b <? 128)%N) l = true ↔ Forall (λ b, (to_N b < 128)%N) l.
Proof.
  rewrite forallb_forall, Forall_forall. setoid_rewrite N.ltb_lt.
  by setoid_rewrite list_elem_of_In.
Qed.

Lemma filter_ascii_id (l : list byte) :
  Forall (λ b, (to_N b < 128)%N) l → filter (λ b, (to_N b < 128)%N) l = l.
Proof.
  induction 1 as [|b l Hb Hl IH]; [done|].
  rewrite filter_cons, decide_True by done. by rewrite IH.
Qed.

(** A storable name is written as itself and its padding, and read back. *)
Lemma encode_name_storable (name : string) :
  storable_name name →
  ∃ name_bytes, encode_name name = inr name_bytes ∧ length name_bytes = 8 ∧
                decode_name name_bytes = name.
Proof.
  intros (Hpos & Hlen & Hascii & Hlast). unfold encode_name.
  set (encoded := String.list_byte_of_string name) in *.
  replace (forallb _ encoded) with true by (symmetry; by apply forallb_ascii).
  eexists. split; [reflexivity|]. unfold slice, ljust.
  rewrite drop_0, take_ge by lia. split.
  - rewrite length_app, length_replicate. lia.
  - unfold decode_name. rewrite filter_ascii_id.
    + rewrite rstrip_nul_app_nuls, rstrip_nul_keeps by done.
      apply String.string_of_list_byte_of_string.
    + apply Forall_app. split; [done|]. apply Forall_replicate. done.
Qed.

(** The name [read] decodes from any eight bytes is storable unless empty. *)
Lemma decode_name_storable (name_bytes : list byte) :
  length name_bytes = 8 → decode_name name_bytes ≠ EmptyString →
  storable_name (decode_name name_bytes).
Proof.
  intros Hlen Hne. unfold storable_name, decode_name in *.
  rewrite String.list_byte_of_string_of_list_byte.
  set (kept := filter (λ b, (to_N b < 128)%N) name_bytes) in *.
  assert (Hkept : length kept ≤ 8)
    by (subst kept; rewrite <- Hlen; apply length_filter).
  pose proof (rstrip_nul_length kept).
  split_and!.
  - destruct (rstrip_nul kept); [done | simpl; lia].
  - lia.
  - apply rstrip_nul_Forall. subst kept. apply Forall_forall.
    by intros b [Hb _]%list_elem_of_filter.
  - apply rstrip_nul_last.
Qed.

(** *** Records *)

Lemma read_entries_record (name_bytes : list byte) i0 i1 i2 i3 s0 s1 s2 s3 rest :
  length name_bytes = 8 →
  read_entries (name_bytes ++ [i0; i1; i2; i3] ++ [s0; s1; s2; s3] ++ rest)
  = if decide (decode_name name_bytes = EmptyString) then []
    else (decode_name name_bytes, le_u32 i0 i1 i2 i3, le_u32 s0 s1 s2 s3)
         :: read_entries rest.
Proof.
  intros Hlen.
  do 8 (destruct name_bytes as [|? name_bytes]; [done|]).
  destruct name_bytes; [reflexivity | done].
Qed.

Lemma storable_name_nonempty (name : string) :
  storable_name name → name ≠ EmptyString.
Proof. intros (Hpos & _) ->. simpl in Hpos. lia. Qed.

Lemma encode_name_length (name : string) name_bytes :
  encode_name name = inr name_bytes → length name_bytes = 8.
Proof.
  unfold encode_name. destruct (forallb _ _); [|done]. intros [= <-].
  unfold ljust, slice. rewrite length_app, length_replicate, length_take, length_drop.
  lia.
Qed.

Lemma encode_name_inr (name : string) :
  (∃ name_bytes, encode_name name = inr name_bytes)
  ↔ Forall (λ b, (to_N b < 128)%N) (String.list_byte_of_string name).
Proof.
  unfold encode_name. rewrite <- forallb_ascii.
  destruct (forallb _ _); split; try done; [by eexists | by intros [? ?]].
Qed.

Lemma write_entry_inr (e : Entry) :
  (∃ record, write_entry e = inr record) ↔ writable_entry e.
Proof.
  destruct e as [[name idx] size]. unfold writable_entry, write_entry. cbn [fst snd].
  rewrite <- encode_name_inr. split.
  - intros [record Hw]. destruct (encode_name name) as [|name_bytes]; [done|].
    destruct (pack_u32 idx) as [|ib] eqn:Hi; [done|].
    destruct (pack_u32 size) as [|sb] eqn:Hs; [done|].
    apply pack_u32_inr in Hi as [? _]. apply pack_u32_inr in Hs as [? _].
    split_and!; [by eexists | done..].
  - intros ([name_bytes ->] & Hi & Hs).
    destruct (pack_u32_le_u32 idx Hi) as (? & ? & ? & ? & -> & _).
    destruct (pack_u32_le_u32 size Hs) as (? & ? & ? & ? & -> & _).
    by eexists.
Qed.

Lemma write_entry_length (e : Entry) record :
  write_entry e = inr record → length record = 16.
Proof.
  destruct e as [[name idx] size]. unfold write_entry.
  destruct (encode_name name) as [|name_bytes] eqn:Hn; [done|].
  destruct (pack_u32 idx) as [|ib] eqn:Hi; [done|].
  destruct (pack_u32 size) as [|sb] eqn:Hs; [done|].
  intros [= <-]. apply encode_name_length in Hn.
  apply pack_u32_inr in Hi as [_ Hi]. apply pack_u32_inr in Hs as [_ Hs].
  rewrite !length_app. lia.
Qed.

Lemma write_entries_inr (entries : list Entry) :
  (∃ records, write_entries entries = inr records) ↔ Forall writable_entry entries.
Proof.
  induction entries as [|e entries IH]; simpl.
  - split; [done | by eexists].
  - rewrite Forall_cons, <- IH, <- write_entry_inr. split.
    + intros [records Hw]. destruct (write_entry e); [done|].
      destruct (write_entries entries); [done|]. split; by eexists.
    + intros [[record ->] [records ->]]. by eexists.
Qed.

Lemma write_entries_length (entries : list Entry) : ∀ records,
  write_entries entries = inr records → length records = 16 * length entries.
Proof.
  induction entries as [|e entries IH]; intros records; simpl.
  - by intros [= <-].
  - destruct (write_entry e) as [|record] eqn:He; [done|].
    destruct (write_entries entries) as [|records'] eqn:Hes; [done|].
    intros [= <-]. rewrite length_app, (write_entry_length _ _ He), (IH _ eq_refl).
    lia.
Qed.

(** The records of storable entries are read back as the entries, whatever
    follows them. *)
Lemma write_entries_read (entries : list Entry) :
  Forall storable_entry entries →
  ∃ records, write_entries entries = inr records ∧
             ∀ rest, read_entries (records ++ rest) = entries ++ read_entries rest.
Proof.
  induction 1 as [|[[name idx] size] entries (Hname & Hidx & Hsize) _ IH].
  - exists []. done.
  - destruct IH as (records & Hrec & Hread). cbn [fst snd] in *.
    destruct (encode_name_storable name Hname) as (name_bytes & Hn & Hlen & Hdec).
    destruct (pack_u32_le_u32 idx Hidx) as (i0 & i1 & i2 & i3 & Hi & Hiv).
    destruct (pack_u32_le_u32 size Hsize) as (s0 & s1 & s2 & s3 & Hs & Hsv).
    eexists. cbn [write_entries write_entry]. rewrite Hn, Hi, Hs, Hrec.
    split; [reflexivity|]. intros rest.
    rewrite <- !app_assoc. rewrite read_entries_record by done.
    rewrite Hdec, Hiv, Hsv, Hread.
    rewrite decide_False by (by apply storable_name_nonempty). done.
Qed.

(** The entries [read] finds are storable, and it finds no more of them than
    there are whole records. *)
Lemma read_entries_storable (n : nat) : ∀ rest,
  length rest ≤ n →
  Forall storable_entry (read_entries rest) ∧
  16 * length (read_entries rest) ≤ length rest.
Proof.
  induction n as [|n IH]; intros rest Hn.
  { destruct rest; [simpl; split; [done | lia] | simpl in Hn; lia]. }
  destruct (decide (length rest < 16)) as [Hshort|Hlong].
  - replace (read_entries rest) with (@nil Entry); [split; [done | simpl; lia]|].
    do 16 (destruct rest as [|? rest]; [done|]). simpl in Hshort. lia.
  - assert (Hsplit : ∃ name_bytes i0 i1 i2 i3 s0 s1 s2 s3 rest',
              rest = name_bytes ++ [i0; i1; i2; i3] ++ [s0; s1; s2; s3] ++ rest' ∧
              length name_bytes = 8).
    { do 16 (destruct rest as [|? rest]; [simpl in Hlong; lia|]).
      eexists [_; _; _; _; _; _; _; _], _, _, _, _, _, _, _, _, rest. done. }
    destruct Hsplit as (name_bytes & i0 & i1 & i2 & i3 & s0 & s1 & s2 & s3 & rest'
                        & -> & Hlen).
    rewrite read_entries_record by done.
    rewrite !length_app in *. simpl in Hn |- *.
    destruct (decide _) as [Hempty|Hname]; [split; [done | simpl; lia]|].
    destruct (IH rest') as [Hall Hcount]; [lia|].
    split; [|simpl; lia]. constructor; [|done].
    split_and!; cbn [fst snd]; [by apply decode_name_storable | apply le_u32_bound..].
Qed.

Lemma unpack_header_16 (buf : list byte) :
  length buf = 16 → ∃ v, unpack_header buf = inr v.
Proof.
  intros Hlen. do 16 (destruct buf as [|? buf]; [done|]).
  destruct buf; [by eexists | done].
Qed.

(** [read] of a 16-byte header followed by anything. *)
Lemma read_app (header body : list byte) :
  length header = 16 →
  read (header ++ body) = inr (header, read_entries body).
Proof.
  intros Hlen. unfold read, slice.
  rewrite drop_0, Nat.sub_0_r, take_app_length', drop_app_length' by done.
  by destruct (unpack_header_16 header Hlen) as [v ->].
Qed.

Lemma read_inr (data header : list byte) (entries : list Entry) :
  read data = inr (header, entries) →
  length header = 16 ∧ data = header ++ drop 16 data ∧
  entries = read_entries (drop 16 data).
Proof.
  unfold read. destruct (unpack_header (slice 0 16 data)) as [|v] eqn:Hh; [done|].
  intros [= <- <-]. apply SDKFacts.unpack_header_inr in Hh.
  split_and!; [done | | done].
  unfold slice. by rewrite drop_0, Nat.sub_0_r, take_drop.
Qed.

(** The header written from a retained 16-byte header. *)
Lemma write_header_16 (header : list byte) (count : N) :
  length header = 16 → (count < 4294967296)%N →
  ∃ c0 c1 c2 c3,
    write_header (Some header) count
    = inr (take 4 header ++ [c0; c1; c2; c3] ++ drop 8 header) ∧
    le_u32 c0 c1 c2 c3 = count.
Proof.
  intros Hlen Hcount. destruct header as [|b header]; [done|].
  destruct (pack_u32_le_u32 count Hcount) as (c0 & c1 & c2 & c3 & Hp & Hv).
  exists c0, c1, c2, c3. split; [|done].
  unfold write_header. rewrite Hp.
  replace (length (b :: header) <? 8) with false
    by (symmetry; apply Nat.ltb_ge; lia).
  reflexivity.
Qed.

Lemma write_header_inr (header : option (list byte)) (count : N) :
  (∃ header_data, write_header header count = inr header_data)
  ↔ patchable_header header ∧ (count < 4294967296)%N.
Proof.
  unfold write_header, patchable_header.
  destruct header as [[|b header]|].
  - destruct (pack_u32 count) as [err|cb] eqn:Hp.
    + apply pack_u32_inl in Hp as [? _]. split; [by intros [? ?] | lia].
    + apply pack_u32_inr in Hp as [? _]. split; [done | by eexists].
  - destruct (length (b :: header) <? 8) eqn:Hlen.
    + apply Nat.ltb_lt in Hlen. split; [by intros [? ?] | lia].
    + apply Nat.ltb_ge in Hlen. destruct (pack_u32 count) as [err|cb] eqn:Hp.
      * apply pack_u32_inl in Hp as [? _]. split; [by intros [? ?] | lia].
      * apply pack_u32_inr in Hp as [? _]. split; [done | by eexists].
  - destruct (pack_u32 count) as [err|cb] eqn:Hp.
    + apply pack_u32_inl in Hp as [? _]. split; [by intros [? ?] | lia].
    + apply pack_u32_inr in Hp as [? _]. split; [done | by eexists].
Qed.

Lemma write_header_length (header : option (list byte)) (count : N) header_data :
  write_header header count = inr header_data →
  length header_data
  = match header with Some (b :: header') => length (b :: header') | _ => 16 end.
Proof.
  unfold write_header. destruct header as [[|b header]|].
  - destruct (pack_u32 count) as [|cb] eqn:Hp; [done|]. intros [= <-].
    apply pack_u32_inr in Hp as [_ Hp]. simpl. rewrite length_app, Hp. done.
  - destruct (length (b :: header) <? 8) eqn:Hlen; [done|].
    apply Nat.ltb_ge in Hlen.
    destruct (pack_u32 count) as [|cb] eqn:Hp; [done|]. intros [= <-].
    apply pack_u32_inr in Hp as [_ Hp]. unfold assign_slice.
    rewrite !length_app, length_take, length_drop, Hp. simpl Nat.max. lia.
  - destruct (pack_u32 count) as [|cb] eqn:Hp; [done|]. intros [= <-].
    apply pack_u32_inr in Hp as [_ Hp]. simpl. rewrite length_app, Hp. done.
Qed.

(** X1. An index written from a 16-byte header and storable entries is read
    back as the same entries; the header read back is the retained one with
    only its second field set to the number of entries, and the file has 16
    bytes for the header and 16 for each entry. *)
Theorem write_read_roundtrip (header : list byte) (entries : list Entry) :
  length header = 16 →
  (N.of_nat (length entries) < 4294967296)%N →
  Forall storable_entry entries →
  ∃ index_data c0 c1 c2 c3,
    write (Some header) entries = inr index_data ∧
    read index_data
    = inr (take 4 header ++ [c0; c1; c2; c3] ++ drop 8 header, entries) ∧
    le_u32 c0 c1 c2 c3 = N.of_nat (length entries) ∧
    length index_data = 16 + 16 * length entries.
Proof.
  intros Hlen Hcount Hall.
  destruct (write_header_16 header _ Hlen Hcount) as (c0 & c1 & c2 & c3 & Hh & Hc).
  destruct (write_entries_read entries Hall) as (records & Hrec & Hread).
  exists (take 4 header ++ [c0; c1; c2; c3] ++ drop 8 header ++ records),
    c0, c1, c2, c3.
  assert (Hlen' : length (take 4 header ++ [c0; c1; c2; c3] ++ drop 8 header) = 16)
    by (rewrite !length_app, length_take, length_drop; cbn [length]; lia).
  split_and!; [| | done |].
  - unfold write. rewrite Hh, Hrec. by rewrite <- !app_assoc.
  - replace (take 4 header ++ [c0; c1; c2; c3] ++ drop 8 header ++ records)
      with ((take 4 header ++ [c0; c1; c2; c3] ++ drop 8 header) ++ records)
      by (by rewrite <- !app_assoc).
    rewrite read_app by done. f_equal. f_equal.
    rewrite <- (app_nil_r records), Hread. simpl. by rewrite app_nil_r.
  - replace (take 4 header ++ [c0; c1; c2; c3] ++ drop 8 header ++ records)
      with ((take 4 header ++ [c0; c1; c2; c3] ++ drop 8 header) ++ records)
      by (by rewrite <- !app_assoc).
    rewrite length_app, Hlen', (write_entries_length _ _ Hrec). done.
Qed.

(** X2. [write] succeeds exactly when the retained header is absent, empty
    or at least 8 bytes long, the number of entries fits 32 bits, and every
    entry has an ASCII name and a block number and a size that fit 32 bits. *)
Theorem write_succeeds_iff (header : option (list byte)) (entries : list Entry) :
  (∃ index_data, write header entries = inr index_data)
  ↔ patchable_header header ∧
    (N.of_nat (length entries) < 4294967296)%N ∧
    Forall writable_entry entries.
Proof.
  unfold write. split.
  - intros [out Hw].
    destruct (write_header _ _) as [|h] eqn:Hh; [done|].
    destruct (write_entries entries) as [|r] eqn:Hr; [done|].
    destruct (proj1 (write_header_inr header (N.of_nat (length entries))))
      as [? ?]; [by eexists|].
    split_and!; [done..|]. apply write_entries_inr. by eexists.
  - intros (Hp & Hcount & Hall).
    destruct (proj2 (write_header_inr header _) (conj Hp Hcount)) as [h ->].
    destruct (proj2 (write_entries_inr entries) Hall) as [r ->]. by eexists.
Qed.

(** X3. The index [write] emits is the header, of the length of the retained
    one or of 16 bytes when there is none, and 16 bytes for each entry:
    longer names are cut and shorter ones padded. *)
Theorem write_length (header : option (list byte)) (entries : list Entry)
    (index_data : list byte) :
  write header entries = inr index_data →
  length index_data
  = match header with Some (b :: header') => length (b :: header') | _ => 16 end
    + 16 * length entries.
Proof.
  unfold write.
  destruct (write_header _ _) as [|h] eqn:Hh; [done|].
  destruct (write_entries entries) as [|r] eqn:Hr; [done|].
  intros [= <-]. rewrite length_app.
  by rewrite (write_header_length _ _ _ Hh), (write_entries_length _ _ Hr).
Qed.

(** X4. Whatever index [read] accepts, the header it retains is the first 16
    bytes, every entry it returns has a non-empty ASCII name of at most
    eight characters that does not end with a null and 32-bit numbers, and
    it returns no more entries than whole records follow the header. *)
Theorem read_entries_wellformed (data header : list byte) (entries : list Entry) :
  read data = inr (header, entries) →
  header = take 16 data ∧ length header = 16 ∧
  Forall storable_entry entries ∧
  16 + 16 * length entries ≤ length data.
Proof.
  intros Hread. destruct (read_inr _ _ _ Hread) as (Hlen & Hdata & ->).
  destruct (read_entries_storable (length (drop 16 data)) (drop 16 data))
    as [Hall Hcount]; [done|].
  split_and!; try done.
  - rewrite Hdata at 1. by rewrite take_app_length'.
  - rewrite length_drop in Hcount.
    apply (f_equal length) in Hdata. rewrite length_app, length_drop in Hdata. lia.
Qed.

(** X5. Writing back what [read] returned, with the header it retained,
    succeeds, and the index written is read as the same entries. *)
Theorem read_write_read (data header : list byte) (entries : list Entry) :
  read data = inr (header, entries) →
  (N.of_nat (length entries) < 4294967296)%N →
  ∃ index_data header',
    write (Some header) entries = inr index_data ∧
    read index_data = inr (header', entries) ∧
    length index_data ≤ length data.
Proof.
  intros Hread Hcount. destruct (read_inr _ _ _ Hread) as (Hlen & Hdata & ->).
  destruct (read_entries_storable (length (drop 16 data)) (drop 16 data))
    as [Hall Hbound]; [done|].
  destruct (write_header_16 header _ Hlen Hcount) as (c0 & c1 & c2 & c3 & Hh & Hc).
  destruct (write_entries_read _ Hall) as (records & Hrec & Hrd).
  assert (Hlen' : length (take 4 header ++ [c0; c1; c2; c3] ++ drop 8 header) = 16)
    by (rewrite !length_app, length_take, length_drop; cbn [length]; lia).
  eexists _, _. unfold write. rewrite Hh, Hrec. split_and!; [done | |].
  - rewrite read_app by done. f_equal. f_equal.
    rewrite <- (app_nil_r records), Hrd. simpl. by rewrite app_nil_r.
  - rewrite length_app, Hlen', (write_entries_length _ _ Hrec).
    rewrite length_drop in Hbound.
    apply (f_equal length) in Hdata. rewrite length_app, length_drop in Hdata. lia.
Qed.

Lemma write_read_roundtrip_witness :
  ∃ index_data c0 c1 c2 c3,
    write (Some (take 16 Samples.sparse_index)) Samples.sparse_entries
    = inr index_data ∧
    read index_data
    = inr (take 4 (take 16 Samples.sparse_index) ++ [c0; c1; c2; c3] ++
           drop 8 (take 16 Samples.sparse_index), Samples.sparse_entries) ∧
    le_u32 c0 c1 c2 c3 = N.of_nat (length Samples.sparse_entries) ∧
    length index_data = 16 + 16 * length Samples.sparse_entries.
Proof.
  apply (write_read_roundtrip (take 16 Samples.sparse_index) Samples.sparse_entries).
  - reflexivity.
  - reflexivity.
  - apply (read_entries_storable 32 (drop 16 Samples.sparse_index)). simpl. lia.
Defined.

Lemma write_length_witness :
  length (take 16 Samples.sparse_index ++ drop 16 Samples.sparse_index)
  = 16 + 16 * length Samples.sparse_entries.
Proof.
  apply (write_length (Some (take 16 Samples.sparse_index)) Samples.sparse_entries).
  reflexivity.
Defined.

Lemma read_entries_wellformed_witness :
  take 16 Samples.sparse_index = take 16 Samples.sparse_index ∧
  length (take 16 Samples.sparse_index) = 16 ∧
  Forall storable_entry Samples.sparse_entries ∧
  16 + 16 * length Samples.sparse_entries ≤ length Samples.sparse_index.
Proof.
  apply (read_entries_wellformed Samples.sparse_index). reflexivity.
Defined.

Lemma read_write_read_witness :
  ∃ index_data header',
    write (Some (take 16 Samples.sparse_index)) Samples.sparse_entries
    = inr index_data ∧
    read index_data = inr (header', Samples.sparse_entries) ∧
    length index_data ≤ length Samples.sparse_index.
Proof.
  apply (read_write_read Samples.sparse_index); reflexivity.
Defined.

End PFTFacts.

(** ** Packing in general *)

Module SDKMore.
Import PFT SDK Samples SDKFacts.

Lemma foldr_max_ge (l : list Entry) (e : Entry) :
  e ∈ l → (e.1.2 ≤ foldr N.max 0 ((λ e : Entry, e.1.2) <$> l))%N.
Proof.
  induction l as [|e1 l IH]; intros He; [by apply elem_of_nil in He|].
  cbn [fmap list_fmap foldr].
  apply elem_of_cons in He as [-> | He]; [lia|].
  specialize (IH He). cbn [fmap] in IH. lia.
Qed.

Lemma max_block_ge (entries : list Entry) (max_blk : N) :
  max_block entries = inr max_blk → ∀ e, e ∈ entries → (e.1.2 ≤ max_blk)%N.
Proof.
  unfold max_block. destruct entries as [|e0 entries]; [done|].
  intros [= <-] e He. exact (foldr_max_ge (e0 :: entries) e He).
Qed.

(** Slice assignment at an offset inside the buffer, also when the new bytes
    reach past its end. *)
Lemma lookup_assign_slice_grow {A} (a p : nat) (new l : list A) :
  a ≤ length l →
  assign_slice a (a + length new) new l !! p
  = if decide (a ≤ p < a + length new) then new !! (p - a) else l !! p.
Proof.
  intros Ha. unfold assign_slice. rewrite Nat.max_r by lia.
  assert (Hl : length (take a l) = a) by (rewrite length_take; lia).
  destruct (decide (p < a)) as [Hp|Hp].
  - rewrite lookup_app_l by lia. rewrite lookup_take_lt by lia.
    case_decide; [lia | done].
  - rewrite lookup_app_r by lia. rewrite Hl.
    destruct (decide (p - a < length new)) as [Hq|Hq].
    + rewrite lookup_app_l by lia. case_decide; [done | lia].
    + rewrite lookup_app_r by lia. rewrite lookup_drop.
      case_decide; [lia|]. f_equal. lia.
Qed.

(** The packing loop: the entries it records, the warnings it prints, and
    where each byte of the buffer comes from. *)
Lemma repack_fold_spec (dir : gmap string (list byte)) (entries : list Entry) :
  ∀ buf new_entries log,
  (∀ e, e ∈ entries → entry_offset e ≤ length buf) →
  ∃ buf',
    foldl (repack_step dir) (buf, new_entries, log) entries
    = (buf', new_entries ++ omap (packed_entry dir) entries,
       log ++ omap (missing_event dir) entries) ∧
    length buf ≤ length buf' ∧
    (∀ e d, e ∈ entries → dir !! scf_path e.1.1 = Some d →
            entry_offset e + length d ≤ length buf') ∧
    ∀ p, (buf' !! p = buf !! p ∧ ∀ e, e ∈ entries → ¬ unit_span dir p e) ∨
         (∃ e d, e ∈ entries ∧ dir !! scf_path e.1.1 = Some d ∧
                 entry_offset e ≤ p < entry_offset e + length d ∧
                 buf' !! p = d !! (p - entry_offset e)).
Proof.
  induction entries as [|[[name idx] size] entries IH];
    intros buf new_entries log Hoff.
  - exists buf. simpl. rewrite !app_nil_r. split_and!; [done | done | |].
    + by intros e d ?%elem_of_nil.
    + intros p. left. split; [done|]. by intros e ?%elem_of_nil.
  - pose proof (Hoff (name, idx, size) ltac:(by left)) as Ha.
    unfold entry_offset in Ha. cbn [fst snd] in Ha.
    cbn [foldl repack_step omap list_omap].
    unfold packed_entry at 1, missing_event at 1. cbn [fst snd].
    destruct (dir !! scf_path name) as [d|] eqn:Hdir; cbn [mbind option_bind].
    + set (a := N.to_nat (idx * BLOCK_SIZE)) in *.
      replace (N.to_nat (idx * BLOCK_SIZE + N.of_nat (length d)))
        with (a + length d) by (subst a; lia).
      pose proof (length_assign_slice a d buf Ha) as Hlen.
      destruct (IH (assign_slice a (a + length d) d buf)
                   (new_entries ++ [(name, idx, N.of_nat (length d))]) log)
        as (buf' & Hfold & Hle & Hends & Hbytes).
      { intros e He. rewrite Hlen. specialize (Hoff e ltac:(by right)). lia. }
      exists buf'. rewrite Hfold, <- app_assoc. split_and!; [done | lia | |].
      * intros e d' [-> | He]%elem_of_cons Hd'; [|by eapply Hends].
        cbn [fst snd] in Hd'. rewrite Hdir in Hd'. injection Hd' as <-.
        unfold entry_offset. cbn [fst snd]. fold a. lia.
      * intros p. destruct (Hbytes p) as [[Hp Hnot] | (e & d' & He & Hd' & Hspan & Hp)].
        -- rewrite lookup_assign_slice_grow in Hp by done.
           destruct (decide (a ≤ p < a + length d)) as [Hin|Hout].
           ++ right. exists (name, idx, size), d.
              split; [by left|]. split; [exact Hdir|].
              split; [exact Hin | exact Hp].
           ++ left. split; [done|].
              intros e [-> | He]%elem_of_cons; [|by apply Hnot].
              intros (d' & Hd' & Hspan). cbn [fst snd] in Hd'.
              rewrite Hdir in Hd'. injection Hd' as <-.
              unfold entry_offset in Hspan. cbn [fst snd] in Hspan. fold a in Hspan.
              lia.
        -- right. exists e, d'. split; [by right|]. done.
    + destruct (IH buf new_entries (log ++ [MissingFile name]))
        as (buf' & Hfold & Hle & Hends & Hbytes).
      { intros e He. apply Hoff. by right. }
      exists buf'. rewrite Hfold, <- app_assoc. split_and!; [done | done | |].
      * intros e d' [-> | He]%elem_of_cons Hd'; [|by eapply Hends].
        cbn [fst snd] in Hd'. congruence.
      * intros p. destruct (Hbytes p) as [[Hp Hnot] | (e & d' & He & Hd' & Hspan & Hp)].
        -- left. split; [done|].
           intros e [-> | He]%elem_of_cons; [|by apply Hnot].
           intros (d' & Hd' & _). cbn [fst snd] in Hd'. congruence.
        -- right. exists e, d'. split; [by right|]. done.
Qed.

(** [repack] on a non-empty index, by the loop invariant. *)
Lemma repack_spec (entries : list Entry) (dir : gmap string (list byte))
    (archive : list byte) (new_entries : list Entry) (log : list Event) :
  repack entries dir = inr (archive, new_entries, log) →
  ∃ max_blk,
    max_block entries = inr max_blk ∧
    new_entries = omap (packed_entry dir) entries ∧
    log = omap (missing_event dir) entries ∧
    N.to_nat ((max_blk + 1) * BLOCK_SIZE) ≤ length archive ∧
    (∀ e d, e ∈ entries → dir !! scf_path e.1.1 = Some d →
            entry_offset e + length d ≤ length archive) ∧
    ∀ p, (archive !! p = replicate (N.to_nat ((max_blk + 1) * BLOCK_SIZE)) x00 !! p ∧
          ∀ e, e ∈ entries → ¬ unit_span dir p e) ∨
         (∃ e d, e ∈ entries ∧ dir !! scf_path e.1.1 = Some d ∧
                 entry_offset e ≤ p < entry_offset e + length d ∧
                 archive !! p = d !! (p - entry_offset e)).
Proof.
  unfold repack. destruct (max_block entries) as [|max_blk] eqn:Hmax; [done|].
  destruct (repack_fold_spec dir entries
              (replicate (N.to_nat ((max_blk + 1) * BLOCK_SIZE)) x00) [] [])
    as (buf' & Hfold & Hle & Hends & Hbytes).
  { intros e He. rewrite length_replicate.
    pose proof (max_block_ge _ _ Hmax e He). unfold entry_offset, BLOCK_SIZE. lia. }
  rewrite Hfold. intros [= <- <- <-]. exists max_blk.
  rewrite length_replicate in Hle. split_and!; done.
Qed.




(** The bytes of a unit that no other unit overlaps are in the archive, at
    the offset of its block. *)
Lemma repack_unit_bytes (entries : list Entry) (dir : gmap string (list byte))
    (archive : list byte) (new_entries : list Entry) (log : list Event)
    (e : Entry) (d : list byte) :
  repack entries dir = inr (archive, new_entries, log) →
  units_disjoint dir entries →
  e ∈ entries → dir !! scf_path e.1.1 = Some d →
  slice (entry_offset e) (entry_offset e + length d) archive = d.
Proof.
  intros Hrep Hdisj He Hd.
  destruct (repack_spec _ _ _ _ _ Hrep) as (m & _ & _ & _ & _ & Hends & Hbytes).
  pose proof (Hends e d He Hd) as Hend.
  apply (list_eq_same_length _ _ (length d)); [done | by apply slice_length_in_range |].
  intros k x y Hk Hx Hy. rewrite slice_lookup in Hx by done.
  assert (Hspan : unit_span dir (entry_offset e + k) e) by (exists d; split; [done | lia]).
  destruct (Hbytes (entry_offset e + k)) as [[_ Hnot] | (e' & d' & He' & Hd' & Hspan' & Hb)].
  - by destruct (Hnot e He).
  - assert (e' = e) as -> by (apply (Hdisj e' e (entry_offset e + k)); [done..| by exists d' | done]).
    rewrite Hd in Hd'. injection Hd' as <-.
    rewrite Hb in Hx. replace (entry_offset e + k - entry_offset e) with k in Hx by lia.
    congruence.
Qed.

Lemma packed_names (dir : gmap string (list byte)) (entries : list Entry) (name : string) :
  name ∈ (omap (packed_entry dir) entries).*1.*1 → name ∈ entries.*1.*1.
Proof.
  rewrite !list_elem_of_fmap. intros (en & -> & (e' & -> & He')%list_elem_of_fmap).
  apply list_elem_of_omap in He' as (e & He & Hp).
  unfold packed_entry in Hp. destruct (dir !! scf_path e.1.1); [|done].
  injection Hp as <-. cbn [fst snd].
  exists e.1. split; [done|]. apply list_elem_of_fmap. by exists e.
Qed.

Lemma packed_NoDup (dir : gmap string (list byte)) (entries : list Entry) :
  NoDup (entries.*1.*1) → NoDup ((omap (packed_entry dir) entries).*1.*1).
Proof.
  induction entries as [|e entries IH]; [done|].
  cbn [fmap list_fmap omap list_omap]. intros [Hfresh Hnd]%NoDup_cons.
  unfold packed_entry at 1. destruct (dir !! scf_path e.1.1); cbn; [|by apply IH].
  apply NoDup_cons. split; [|by apply IH].
  intros Hin. apply Hfresh. by apply (packed_names dir).
Qed.

(** X9. Unpacking what was packed gives the units back: when the entries
    have plain, pairwise distinct names and the units of different entries do
    not overlap in the archive, [unpack] with the index [repack] recorded
    returns, writes every unit file that was packed, with its bytes, and
    extracts as many files as were packed. *)
Theorem unpack_repack_units (entries : list Entry) (dir : gmap string (list byte))
    (archive : list byte) (new_entries : list Entry) (log : list Event)
    (output_dir : gmap string (list byte)) :
  repack entries dir = inr (archive, new_entries, log) →
  NoDup (entries.*1.*1) →
  (∀ e, e ∈ entries → plain_name e.1.1) →
  units_disjoint dir entries →
  ∃ dir' log',
    unpack new_entries archive output_dir = inr (dir', length new_entries, log') ∧
    ∀ name idx size scf_data,
      (name, idx, size) ∈ entries → dir !! scf_path name = Some scf_data →
      dir' !! scf_path name = Some scf_data.
Proof.
  intros Hrep Hnd Hplain Hdisj.
  destruct (repack_spec _ _ _ _ _ Hrep) as (m & _ & Hne & _ & _ & Hends & _).
  assert (Hrange : ∀ e', e' ∈ new_entries → entry_end e' ≤ length archive).
  { intros e'. rewrite Hne. intros (e & He & Hp)%list_elem_of_omap.
    unfold packed_entry in Hp. destruct (dir !! scf_path e.1.1) as [d|] eqn:Hd; [|done].
    injection Hp as <-. pose proof (Hends e d He Hd).
    unfold entry_end, entry_offset in *. cbn [fst snd]. lia. }
  assert (Hplain' : ∀ e', e' ∈ new_entries → plain_name e'.1.1).
  { intros e'. rewrite Hne. intros (e & He & Hp)%list_elem_of_omap.
    unfold packed_entry in Hp. destruct (dir !! scf_path e.1.1); [|done].
    injection Hp as <-. cbn [fst]. by apply Hplain. }
  unfold unpack. rewrite unpack_loop_plain by (intros e' He' _; by apply Hplain').
  set (final := foldl (extract_step archive) (output_dir, 0, []) new_entries).
  assert (Hcount : final.1.2 = length new_entries).
  { subst final. rewrite unpack_count. rewrite filter_all; [done|].
    apply Forall_forall. intros e' He'. by apply Hrange. }
  exists final.1.1, final.2. split.
  { rewrite <- Hcount. by destruct final as [[? ?] ?]. }
  intros name idx size d He Hd.
  set (e' := (name, idx, N.of_nat (length d)) : Entry).
  assert (He' : e' ∈ new_entries).
  { rewrite Hne. apply list_elem_of_omap. exists (name, idx, size).
    split; [done|]. unfold packed_entry. cbn [fst snd]. by rewrite Hd. }
  pose proof (unpack_dir_lookup archive new_entries (output_dir, 0, []) e') as Hlook.
  subst final. change (scf_path name) with (scf_path e'.1.1).
  rewrite Hlook; [| rewrite Hne; by apply packed_NoDup | done | by apply Hrange].
  f_equal.
  replace (entry_end e') with (entry_offset (name, idx, size) + length d)
    by (unfold entry_end, entry_offset, e'; cbn [fst snd]; lia).
  change (entry_offset e') with (entry_offset (name, idx, size)).
  by apply (repack_unit_bytes entries dir archive new_entries log).
Qed.

(** X10. When the entries within bounds have plain names, [unpack] returns
    the number of entries whose span lies inside the archive, which is at
    most the number of entries. *)
Theorem unpack_count_in_range (entries : list Entry) (archive : list byte)
    (output_dir : gmap string (list byte)) :
  (∀ e, e ∈ entries → entry_end e ≤ length archive → plain_name e.1.1) →
  ∃ dir log,
    unpack entries archive output_dir
    = inr (dir, length (filter (λ e, entry_end e ≤ length archive) entries), log) ∧
    length (filter (λ e, entry_end e ≤ length archive) entries) ≤ length entries.
Proof.
  intros Hplain. unfold unpack. rewrite unpack_loop_plain by done.
  set (final := foldl (extract_step archive) (output_dir, 0, []) entries).
  assert (Hcount : final.1.2
                   = length (filter (λ e, entry_end e ≤ length archive) entries))
    by (subst final; by rewrite unpack_count).
  exists final.1.1, final.2. split; [|apply length_filter].
  rewrite <- Hcount. by destruct final as [[? ?] ?].
Qed.


Lemma target_null (name : string) :
  has_char "000"%char name = true → target name = Refused EmbeddedNull.
Proof.
  intros Hnul. unfold target, scf_path. cbn zeta.
  by rewrite has_char_app, Hnul.
Qed.

Lemma unpack_loop_app (archive : list byte) (before rest : list Entry) : ∀ st st',
  unpack_loop archive before st = inr st' →
  unpack_loop archive (before ++ rest) st = unpack_loop archive rest st'.
Proof.
  induction before as [|e before IH]; intros st st' Hrun.
  - by injection Hrun as ->.
  - cbn [app unpack_loop] in *.
    destruct (unpack_step archive st e) as [stop|st1]; [done|]. by apply IH.
Qed.

(** X28. [unpack] is ended by [ValueError] at the first entry within bounds
    whose name holds a null character: the files of the entries before it
    have been written, and nothing is written or printed for it or for any
    entry after it. *)
Theorem unpack_stops_at_null_name (before after : list Entry) (e : Entry)
    (archive : list byte) (output_dir : gmap string (list byte)) :
  (∀ e', e' ∈ before → entry_end e' ≤ length archive → plain_name e'.1.1) →
  entry_end e ≤ length archive →
  has_char "000"%char e.1.1 = true →
  ∃ dir extracted log,
    unpack before archive output_dir = inr (dir, extracted, log) ∧
    unpack (before ++ e :: after) archive output_dir
    = inl (Raises EmbeddedNull, dir, log).
Proof.
  intros Hplain Hend Hnul. unfold unpack.
  pose proof (unpack_loop_plain archive before (output_dir, 0, []) Hplain) as Hrun.
  destruct (foldl (extract_step archive) (output_dir, 0, []) before)
    as [[dir n] log] eqn:Hfinal.
  exists dir, n, log. split; [done|].
  rewrite (unpack_loop_app archive before (e :: after) _ _ Hrun).
  destruct e as [[name idx] size]. cbn [unpack_loop unpack_step fst snd] in *.
  unfold entry_end in Hend. cbn [fst snd] in Hend.
  destruct (_ <=? _)%N eqn:Hr; [|apply N.leb_gt in Hr; lia].
  by rewrite target_null.
Qed.


(** *** The end-to-end example *)

Lemma repack_sparse_units :
  repack sparse_entries sparse_units = inr (sparse_archive, sparse_entries, []).
Proof. vm_compute. reflexivity. Qed.

Lemma sparse_unit_lookup (name : string) (idx size : N) (d : list byte) :
  (name, idx, size) ∈ sparse_entries → sparse_units !! scf_path name = Some d →
  (idx = 0%N ∧ d = replicate 100 x01) ∨ (idx = 5%N ∧ d = replicate 50 x02).
Proof.
  unfold sparse_entries. rewrite !elem_of_cons, elem_of_nil.
  intros [[= -> -> ->] | [[= -> -> ->] | []]] Hd.
  - left. split; [done|].
    assert (H1 : sparse_units !! scf_path "SCN002" = Some (replicate 100 x01))
      by reflexivity.
    congruence.
  - right. split; [done|].
    assert (H1 : sparse_units !! scf_path "SCN003" = Some (replicate 50 x02))
      by reflexivity.
    congruence.
Qed.

Lemma sparse_names_NoDup : NoDup (sparse_entries.*1.*1).
Proof.
  cbn. apply NoDup_cons. split; [|apply NoDup_singleton].
  intros Hin%list_elem_of_singleton. discriminate.
Qed.

Lemma sparse_units_disjoint : units_disjoint sparse_units sparse_entries.
Proof.
  intros [[n1 i1] s1] [[n2 i2] s2] p He1 He2 (d1 & Hd1 & Hp1) (d2 & Hd2 & Hp2).
  cbn [fst snd] in *.
  destruct (sparse_unit_lookup _ _ _ _ He1 Hd1) as [[-> ->] | [-> ->]];
    destruct (sparse_unit_lookup _ _ _ _ He2 Hd2) as [[-> ->] | [-> ->]];
    unfold entry_offset, BLOCK_SIZE in Hp1, Hp2; cbn [fst snd] in Hp1, Hp2;
    rewrite length_replicate in Hp1, Hp2; try lia;
    unfold sparse_entries in He1, He2;
    rewrite !elem_of_cons, elem_of_nil in He1, He2;
    destruct He1 as [He1 | [He1 | []]]; destruct He2 as [He2 | [He2 | []]];
    congruence.
Qed.




Lemma unpack_repack_units_witness :
  ∃ dir' log',
    unpack sparse_entries sparse_archive ∅ = inr (dir', length sparse_entries, log') ∧
    ∀ name idx size scf_data,
      (name, idx, size) ∈ sparse_entries →
      sparse_units !! scf_path name = Some scf_data →
      dir' !! scf_path name = Some scf_data.
Proof.
  apply (unpack_repack_units sparse_entries sparse_units sparse_archive
           sparse_entries [] ∅).
  - exact repack_sparse_units.
  - exact sparse_names_NoDup.
  - exact sparse_names_plain.
  - exact sparse_units_disjoint.
Defined.

Lemma unpack_count_in_range_witness :
  ∃ dir log,
    unpack sparse_entries ones_archive ∅
    = inr (dir, length (filter (λ e, entry_end e ≤ length ones_archive) sparse_entries),
           log) ∧
    length (filter (λ e, entry_end e ≤ length ones_archive) sparse_entries)
    ≤ length sparse_entries.
Proof.
  apply (unpack_count_in_range sparse_entries ones_archive ∅).
  intros e He _. by apply sparse_names_plain.
Defined.


Lemma unpack_stops_at_null_name_witness :
  ∃ dir extracted log,
    unpack [("SCN002"%string, 0%N, 100%N)] ones_archive ∅ = inr (dir, extracted, log) ∧
    unpack ([("SCN002"%string, 0%N, 100%N)] ++ nul_entries) ones_archive ∅
    = inl (Raises EmbeddedNull, dir, log).
Proof.
  apply (unpack_stops_at_null_name [("SCN002"%string, 0%N, 100%N)]
           [("C"%string, 9%N, 1%N)]
           (String "A"%char (String "000"%char (String "B"%char EmptyString)), 0%N, 1%N)
           ones_archive ∅).
  - intros e He%list_elem_of_singleton _. subst e.
    split; [reflexivity|]. split; [reflexivity|]. vm_compute. lia.
  - vm_compute. lia.
  - reflexivity.
Defined.



End SDKMore.

(** ** Parsing and rebuilding in general *)

Module SCFMore.
Import SCF SCFFacts Samples.

Lemma drop_three {A} (a b c : nat) (l : list A) :
  a ≤ b → b ≤ c → drop a l = slice a b l ++ slice b c l ++ drop c l.
Proof.
  intros Hab Hbc. unfold slice.
  rewrite <- (take_drop (b - a) (drop a l)) at 1. f_equal.
  rewrite drop_drop. replace (a + (b - a)) with b by lia.
  rewrite <- (take_drop (c - b) (drop b l)) at 1. f_equal.
  rewrite drop_drop. f_equal. lia.
Qed.

Section WithCodec.
Context `{Codec}.

Lemma parse_loop_min_length fuel : ∀ i rest,
  Forall (λ s, 2 ≤ seg_length s) (parse_loop fuel i rest).
Proof.
  induction fuel as [|fuel IH]; intros i [|b rest]; try (simpl; by constructor).
  rewrite parse_loop_cons.
  destruct (read_segment (b :: rest)) as [segment r2].
  apply Forall_app. split; [|apply IH].
  apply Forall_forall. intros s Hs.
  destruct (classify_spec _ _ _ Hs) as (-> & Hlen & _). simpl. lia.
Qed.

(** X13. Every segment of a parsed unit lies inside the unit and is at least
    two bytes long; its raw bytes are the bytes of the unit at its span, its
    length is their number, its text is the decoding of all of them but the
    last and has a character of the two ranges. *)
Theorem parse_segment_invariants (data : list byte) (i : nat) (s : TextSegment) :
  text_segments (parse data) !! i = Some s →
  seg_original s = slice (seg_offset s) (seg_offset s + seg_length s) data ∧
  seg_length s = length (seg_original s) ∧
  2 ≤ seg_length s ∧
  seg_offset s + seg_length s ≤ size (parse data) ∧
  seg_text s = decode (slice 0 (seg_length s - 1) (seg_original s)) ∧
  contains_japanese (seg_text s) = true.
Proof.
  intros Hs.
  assert (Hin : s ∈ text_segments (parse data)) by (by eapply list_elem_of_lookup_2).
  pose proof (parse_segment_of data) as Hof. rewrite Forall_forall in Hof.
  destruct (Hof s Hin) as (Horig & Hlen & Htext & Hj).
  pose proof (parse_loop_min_length (length data) 0 data) as Hmin.
  rewrite Forall_forall in Hmin.
  destruct (segments_from_lookup _ _ _ _ _ (parse_segments_from data) Hs)
    as (_ & _ & Hend).
  split_and!; [done | done | by apply Hmin | exact Hend | done | done].
Qed.

(** X14. [extract_texts] gives one text for each segment of a parsed unit, in
    order, and every one of them has a character of the two ranges; none is
    empty. *)
Theorem extract_texts_japanese (data : list byte) :
  length (extract_texts (parse data)) = length (text_segments (parse data)) ∧
  Forall (λ t, contains_japanese t = true ∧ t ≠ []) (extract_texts (parse data)).
Proof.
  unfold extract_texts. split; [apply length_fmap|].
  apply Forall_fmap. pose proof (parse_segment_of data) as Hof.
  eapply Forall_impl; [exact Hof|]. intros s (_ & _ & _ & Hj). simpl.
  split; [done|]. intros Hnil. by rewrite Hnil in Hj.
Qed.

(** X15. With exactly as many replacement texts as the parsed unit has
    segments, [rebuild] prints no count warning and returns the unit with
    every segment replaced by the encoding of its text and a terminator, or
    left as it was and reported when the text cannot be encoded; all other
    bytes are those of the original, in place. *)
Theorem rebuild_all_texts (data : list byte) (new_texts : list text) :
  let segments := text_segments (parse data) in
  new_texts ≠ [] → length new_texts = length segments →
  rebuild (parse data) (Some new_texts)
  = (replaced_from data 0 segments new_texts,
     encode_errors (reverse (zip segments new_texts))).
Proof.
  intros segments Hne Hlen. rewrite rebuild_replaces by done. fold segments.
  by rewrite decide_True.
Qed.

Lemma replaced_from_take data segments : ∀ pos new_texts,
  replaced_from data pos segments (take (length segments) new_texts)
  = replaced_from data pos segments new_texts.
Proof.
  induction segments as [|s segments IH]; intros pos [|t new_texts]; try done.
  simpl. by rewrite IH.
Qed.

Lemma zip_take_r {A B} (l : list A) : ∀ k : list B,
  zip l (take (length l) k) = zip l k.
Proof.
  induction l as [|x l IH]; intros [|y k]; try done. simpl. by rewrite IH.
Qed.

(** X16. Replacement texts beyond the number of segments are ignored: with
    more texts than segments [rebuild] returns the bytes it returns for the
    first texts alone, and prints the count warning before what it prints
    for them. *)
Theorem rebuild_surplus_texts (data : list byte) (new_texts : list text) :
  let segments := text_segments (parse data) in
  length segments < length new_texts →
  rebuild (parse data) (Some new_texts)
  = ((rebuild (parse data) (Some (take (length segments) new_texts))).1,
     CountMismatch (length segments) (length new_texts)
     :: (rebuild (parse data) (Some (take (length segments) new_texts))).2).
Proof.
  intros segments Hlt. subst segments.
  remember (text_segments (parse data)) as segments eqn:Eseg.
  assert (Hne : new_texts ≠ []) by (intros ->; simpl in Hlt; lia).
  rewrite rebuild_replaces by done. cbn zeta. rewrite <- Eseg.
  rewrite decide_False by lia.
  destruct segments as [|s segments]; [reflexivity|].
  assert (Htake : take (length (s :: segments)) new_texts ≠ [])
    by (destruct new_texts; [done | simpl; discriminate]).
  rewrite (rebuild_replaces data (take (length (s :: segments)) new_texts)) by done.
  cbn zeta. rewrite <- Eseg.
  rewrite decide_True by (rewrite length_take; lia).
  cbn [fst snd]. by rewrite replaced_from_take, zip_take_r.
Qed.

(** Replacing every segment by its own bytes changes nothing. *)
Lemma replaced_from_same data segments : ∀ pos new_texts,
  segments_from data pos segments →
  Forall (segment_of data) segments →
  (∀ i s t, segments !! i = Some s → new_texts !! i = Some t →
            ∃ encoded, encode t = Some encoded ∧ encoded ++ [x00] = seg_original s) →
  replaced_from data pos segments new_texts = drop pos data ∧
  encode_errors (zip segments new_texts) = [].
Proof.
  induction segments as [|s segments IH]; intros pos new_texts Hsegs Hof Henc;
    [done|].
  destruct new_texts as [|t new_texts]; [done|].
  destruct Hsegs as (Hle & Hlen & Hend & Hrest).
  apply Forall_cons in Hof as [(Horig & _) Hof].
  destruct (Henc 0 s t eq_refl eq_refl) as (encoded & He & Hsame).
  destruct (IH (seg_offset s + seg_length s) new_texts Hrest Hof) as [IHr IHe].
  { intros i s' t' Hs' Ht'. exact (Henc (S i) s' t' Hs' Ht'). }
  split.
  - cbn [replaced_from]. unfold replacement. rewrite He, Hsame, Horig, IHr.
    symmetry. apply drop_three; lia.
  - change (zip (s :: segments) (t :: new_texts)) with ((s, t) :: zip segments new_texts).
    unfold encode_errors in *. rewrite bind_cons. cbn [fst snd]. by rewrite He, IHe.
Qed.

Lemma encode_errors_reverse_nil (pairs : list (TextSegment * text)) :
  encode_errors pairs = [] → encode_errors (reverse pairs) = [].
Proof.
  induction pairs as [|[s t] pairs IH]; [done|].
  unfold encode_errors at 1. rewrite bind_cons. cbn [fst snd].
  intros [Ht Hrest]%app_eq_nil.
  rewrite reverse_cons, encode_errors_snoc. rewrite IH by done.
  by destruct (encode t).
Qed.

(** X17. Rebuilding with texts that encode to the very bytes of their
    segments returns the original unit unchanged and prints nothing. *)
Theorem rebuild_same_texts (data : list byte) (new_texts : list text) :
  let segments := text_segments (parse data) in
  length new_texts = length segments →
  (∀ i s t, segments !! i = Some s → new_texts !! i = Some t →
            ∃ encoded, encode t = Some encoded ∧ encoded ++ [x00] = seg_original s) →
  rebuild (parse data) (Some new_texts) = (data, []).
Proof.
  intros segments Hlen Henc.
  destruct new_texts as [|t new_texts]; [done|].
  rewrite rebuild_replaces by done. fold segments.
  rewrite decide_True by done.
  destruct (replaced_from_same data segments 0 (t :: new_texts)) as [-> Herr];
    [apply parse_segments_from | apply parse_segment_of | done |].
  by rewrite drop_0, encode_errors_reverse_nil.
Qed.

Lemma replaced_from_length data segments : ∀ pos new_texts,
  segments_from data pos segments → pos ≤ length data →
  length (replaced_from data pos segments new_texts)
  + sum_list (seg_length <$> take (length new_texts) segments)
  = (length data - pos)
    + sum_list (zip_with (λ s t, length (replacement data s t)) segments new_texts).
Proof.
  induction segments as [|s segments IH]; intros pos new_texts Hsegs Hpos.
  - simpl. rewrite take_nil, length_drop. simpl. lia.
  - destruct new_texts as [|t new_texts].
    { simpl. rewrite length_drop. lia. }
    destruct Hsegs as (Hle & Hlen & Hend & Hrest).
    specialize (IH (seg_offset s + seg_length s) new_texts Hrest Hend).
    cbn [replaced_from length take fmap list_fmap sum_list sum_list_with zip_with].
    rewrite !length_app.
    assert (Hs : length (slice pos (seg_offset s) data) = seg_offset s - pos)
      by (unfold slice; rewrite length_take, length_drop; lia).
    rewrite Hs. unfold id in *. lia.
Qed.

(** X18. The rebuilt unit is as long as the original, less the lengths of
    the segments that had a replacement text, plus the lengths of what was
    put in their place: the encoded text and its terminator, or the segment
    itself when the text cannot be encoded. *)
Theorem rebuild_length (data : list byte) (new_texts : list text) :
  let segments := text_segments (parse data) in
  new_texts ≠ [] →
  length (rebuild (parse data) (Some new_texts)).1
  + sum_list (seg_length <$> take (length new_texts) segments)
  = length data
    + sum_list (zip_with (λ s t, length (replacement data s t)) segments new_texts).
Proof.
  intros segments Hne. rewrite rebuild_replaces by done. fold segments. cbn [fst].
  rewrite (replaced_from_length data segments 0 new_texts);
    [lia | apply parse_segments_from | lia].
Qed.

Lemma classify_shift (k start : nat) (segment : list byte) :
  classify (k + start) segment = shift_segment k <$> classify start segment.
Proof.
  unfold classify. destruct (1 <? length segment); [|done].
  destruct (slice 0 (length segment - 1) segment); [done|].
  by destruct (contains_japanese _).
Qed.

Lemma parse_loop_shift (k : nat) fuel : ∀ i rest,
  parse_loop fuel (k + i) rest = shift_segment k <$> parse_loop fuel i rest.
Proof.
  induction fuel as [|fuel IH]; intros i [|b rest]; try done.
  rewrite !parse_loop_cons.
  destruct (read_segment (b :: rest)) as [segment r2].
  rewrite fmap_app, classify_shift, <- Nat.add_assoc. by rewrite IH.
Qed.

(** X19. Parsing is local to what follows a null byte: the segments of a
    unit whose first part is empty or ends with a null byte are the segments
    of that part followed by the segments of the rest, moved by the length of
    the first part. *)
Theorem parse_app (pre rest : list byte) :
  pre = [] ∨ last pre = Some x00 →
  text_segments (parse (pre ++ rest))
  = text_segments (parse pre)
    ++ (shift_segment (length pre) <$> text_segments (parse rest)).
Proof.
  intros Hpre. cbn [text_segments parse].
  rewrite parse_loop_app by done.
  rewrite (parse_loop_fuel (length (pre ++ rest)) (length pre) 0 pre)
    by (rewrite ?length_app; lia).
  rewrite (parse_loop_fuel (length (pre ++ rest)) (length rest) (0 + length pre) rest)
    by (rewrite ?length_app; lia).
  f_equal. rewrite Nat.add_0_l.
  replace (length pre) with (length pre + 0) at 1 by lia.
  apply parse_loop_shift.
Qed.

End WithCodec.

(** *** Samples *)

Lemma two_segment_parse :
  text_segments (parse (H:=hiragana) two_segment_unit)
  = [ {| seg_offset := 0; seg_length := 3;
         seg_original := [x82; xa0; x00]; seg_text := [0x3042%N] |};
      {| seg_offset := 6; seg_length := 5;
         seg_original := [x82; xa2; x82; xa4; x00];
         seg_text := [0x3044%N; 0x3046%N] |} ].
Proof. reflexivity. Qed.

Lemma terminated_run_recorded_iff_witness :
  let s := {| seg_offset := 6; seg_length := 5;
              seg_original := [x82; xa2; x82; xa4; x00];
              seg_text := [0x3044%N; 0x3046%N] |} in
  (s ∈ text_segments
         (parse (H:=hiragana)
            ([x82; xa0; x00; x41; x42; x00] ++ [x82; xa2; x82; xa4] ++ x00 :: []))
   ∧ seg_offset s = length [x82; xa0; x00; x41; x42; x00])
  ↔ ([x82; xa2; x82; xa4] ≠ [] ∧
     contains_japanese (decode (Codec:=hiragana) [x82; xa2; x82; xa4]) = true ∧
     s = {| seg_offset := length [x82; xa0; x00; x41; x42; x00];
            seg_length := S (length [x82; xa2; x82; xa4]);
            seg_original := [x82; xa2; x82; xa4] ++ [x00];
            seg_text := decode (Codec:=hiragana) [x82; xa2; x82; xa4] |}).
Proof.
  intros s.
  apply (terminated_run_recorded_iff (H:=hiragana)
           [x82; xa0; x00; x41; x42; x00] [x82; xa2; x82; xa4] [] s).
  - right. reflexivity.
  - repeat (apply Forall_cons_2; [discriminate|]). apply Forall_nil_2.
Defined.

Lemma parse_segment_invariants_witness :
  let s := {| seg_offset := 6; seg_length := 5;
              seg_original := [x82; xa2; x82; xa4; x00];
              seg_text := [0x3044%N; 0x3046%N] |} in
  seg_original s = slice (seg_offset s) (seg_offset s + seg_length s) two_segment_unit ∧
  seg_length s = length (seg_original s) ∧
  2 ≤ seg_length s ∧
  seg_offset s + seg_length s ≤ size (parse (H:=hiragana) two_segment_unit) ∧
  seg_text s = decode (Codec:=hiragana) (slice 0 (seg_length s - 1) (seg_original s)) ∧
  contains_japanese (seg_text s) = true.
Proof.
  intros s. apply (parse_segment_invariants (H:=hiragana) two_segment_unit 1 s).
  reflexivity.
Defined.

Lemma rebuild_all_texts_witness :
  let segments := text_segments (parse (H:=hiragana) two_segment_unit) in
  let new_texts := [[0x41%N]; [0x3042%N; 0x3042%N; 0x3042%N]] in
  rebuild (H:=hiragana) (parse (H:=hiragana) two_segment_unit) (Some new_texts)
  = (replaced_from (H:=hiragana) two_segment_unit 0 segments new_texts,
     encode_errors (H:=hiragana) (reverse (zip segments new_texts))).
Proof.
  apply (rebuild_all_texts (H:=hiragana) two_segment_unit
           [[0x41%N]; [0x3042%N; 0x3042%N; 0x3042%N]]); [discriminate | reflexivity].
Defined.

Lemma rebuild_surplus_texts_witness :
  let c := parse (H:=hiragana) two_segment_unit in
  let new_texts := [[0x41%N]; [0x42%N]; [0x43%N]] in
  rebuild (H:=hiragana) c (Some new_texts)
  = ((rebuild (H:=hiragana) c (Some (take (length (text_segments c)) new_texts))).1,
     CountMismatch (length (text_segments c)) (length new_texts)
     :: (rebuild (H:=hiragana) c (Some (take (length (text_segments c)) new_texts))).2).
Proof.
  apply (rebuild_surplus_texts (H:=hiragana) two_segment_unit
           [[0x41%N]; [0x42%N]; [0x43%N]]).
  rewrite two_segment_parse. simpl. lia.
Defined.

Lemma rebuild_same_texts_witness :
  rebuild (H:=hiragana) (parse (H:=hiragana) two_segment_unit)
    (Some [[0x3042%N]; [0x3044%N; 0x3046%N]])
  = (two_segment_unit, []).
Proof.
  apply (rebuild_same_texts (H:=hiragana) two_segment_unit
           [[0x3042%N]; [0x3044%N; 0x3046%N]]).
  - reflexivity.
  - rewrite two_segment_parse. intros [|[|i]] s t Hs Ht; simpl in Hs, Ht; try done;
      injection Hs as <-; injection Ht as <-; eexists; split; reflexivity.
Defined.

Lemma rebuild_length_witness :
  let segments := text_segments (parse (H:=hiragana) two_segment_unit) in
  let new_texts := [[0x41%N]; [0x3042%N; 0x3042%N; 0x3042%N]] in
  length (rebuild (H:=hiragana) (parse (H:=hiragana) two_segment_unit)
            (Some new_texts)).1
  + sum_list (seg_length <$> take (length new_texts) segments)
  = length two_segment_unit
    + sum_list (zip_with (λ s t, length (replacement (H:=hiragana) two_segment_unit s t))
                  segments new_texts).
Proof.
  apply (rebuild_length (H:=hiragana) two_segment_unit
           [[0x41%N]; [0x3042%N; 0x3042%N; 0x3042%N]]).
  discriminate.
Defined.

Lemma parse_app_witness :
  text_segments (parse (H:=hiragana) ([x82; xa0; x00] ++ [x82; xa2; x00]))
  = text_segments (parse (H:=hiragana) [x82; xa0; x00])
    ++ (shift_segment (length [x82; xa0; x00])
          <$> text_segments (parse (H:=hiragana) [x82; xa2; x00])).
Proof.
  apply (parse_app (H:=hiragana) [x82; xa0; x00] [x82; xa2; x00]).
  right. reflexivity.
Defined.

End SCFMore.

(** ** The fixed-length injection scripts *)

Module InjectFacts.
Import SCF PFT Inject Samples SDKFacts.

Lemma byte_eqb_true (a b : byte) : Byte.eqb a b = true ↔ a = b.
Proof. split; [apply byte_dec_bl | apply byte_dec_lb]. Qed.

Lemma starts_with_spec (sub : list byte) : ∀ data,
  starts_with sub data = true ↔ ∃ rest, data = sub ++ rest.
Proof.
  induction sub as [|s sub IH]; intros data; simpl.
  - split; [by exists data | done].
  - destruct data as [|d data].
    + split; [done | by intros [rest ?]].
    + rewrite andb_true_iff, byte_eqb_true, IH. split.
      * intros [-> [rest ->]]. by exists rest.
      * intros [rest [= -> ->]]. split; [done | by exists rest].
Qed.

Lemma occurs_at_drop (sub data : list byte) (k : nat) :
  k ≤ length data →
  (starts_with sub (drop k data) = true ↔ occurs_at sub data k).
Proof.
  intros Hk. rewrite starts_with_spec. unfold occurs_at, slice.
  replace (k + length sub - k) with (length sub) by lia. split.
  - intros [rest Hrest]. rewrite Hrest, take_app_length. split; [done|].
    apply (f_equal length) in Hrest. rewrite length_drop, length_app in Hrest. lia.
  - intros [Htake Hlen]. exists (drop (length sub) (drop k data)).
    by rewrite <- Htake at 1; rewrite take_drop.
Qed.

(** [find] gives the first place where the bytes occur. *)
Lemma find_from_spec (sub : list byte) : ∀ data i,
  match find_from i sub data with
  | Some j => ∃ k, j = i + k ∧ k ≤ length data ∧
                   starts_with sub (drop k data) = true ∧
                   ∀ k', k' < k → starts_with sub (drop k' data) = false
  | None => ∀ k, k ≤ length data → starts_with sub (drop k data) = false
  end.
Proof.
  induction data as [|d data IH]; intros i; simpl.
  - destruct (starts_with sub []) eqn:Hs.
    + exists 0. split_and!; [lia | done | done | lia].
    + intros k Hk. by rewrite drop_nil.
  - destruct (starts_with sub (d :: data)) eqn:Hs.
    + exists 0. split_and!; [lia | simpl; lia | done | lia].
    + specialize (IH (S i)). destruct (find_from (S i) sub data) as [j|].
      * destruct IH as (k & -> & Hk & Hocc & Hfirst).
        exists (S k). split_and!; [lia | simpl; lia | done |].
        intros [|k'] Hk'; [done|]. apply Hfirst. lia.
      * intros [|k] Hk; [done|]. apply IH. simpl in Hk. lia.
Qed.

Lemma find_Some (sub data : list byte) (idx : nat) :
  find sub data = Some idx →
  occurs_at sub data idx ∧ ∀ j, j < idx → ¬ occurs_at sub data j.
Proof.
  unfold find. intros Hf. pose proof (find_from_spec sub data 0) as Hspec.
  rewrite Hf in Hspec. destruct Hspec as (k & -> & Hk & Hocc & Hfirst).
  simpl. split; [by apply occurs_at_drop|].
  intros j Hj Hat. apply occurs_at_drop in Hat; [|lia].
  rewrite Hfirst in Hat by done. done.
Qed.

Lemma find_None (sub data : list byte) :
  find sub data = None → ∀ j, ¬ occurs_at sub data j.
Proof.
  unfold find. intros Hf j Hat. pose proof (find_from_spec sub data 0) as Hspec.
  rewrite Hf in Hspec. destruct Hat as [Hs Hlen].
  assert (Hj : j ≤ length data) by lia.
  specialize (Hspec j Hj). apply not_true_iff_false in Hspec. apply Hspec.
  apply occurs_at_drop; [done|]. by split.
Qed.

Lemma fit_length_length (target_len : nat) (repl_bytes : list byte) :
  length (fit_length target_len repl_bytes) = target_len.
Proof.
  unfold fit_length, ljust, slice.
  destruct (length repl_bytes <? target_len) eqn:H1.
  - apply Nat.ltb_lt in H1. rewrite length_app, length_replicate. lia.
  - apply Nat.ltb_ge in H1. destruct (target_len <? length repl_bytes) eqn:H2.
    + apply Nat.ltb_lt in H2. rewrite length_take, length_drop. lia.
    + apply Nat.ltb_ge in H2. lia.
Qed.

Section WithCodec.
Context `{Codec}.

Lemma steps_agree (data : list byte) (item : text * text) :
  rapi_step data item = kalibrasi_step data item.
Proof.
  destruct item as [original replacement]. unfold rapi_step, kalibrasi_step.
  destruct (encode original) as [ob|]; [|done]. cbn [mbind option_bind].
  destruct (encode replacement) as [rb|]; [|done]. cbn [mbind option_bind].
  by destruct (find ob data).
Qed.

Lemma rapi_step_length (data : list byte) (item : text * text) (out : list byte) :
  rapi_step data item = Some out → length out = length data.
Proof.
  destruct item as [original replacement]. unfold rapi_step.
  destruct (encode original) as [ob|]; [|done]. cbn [mbind option_bind].
  destruct (encode replacement) as [rb|]; [|done]. cbn [mbind option_bind].
  destruct (find ob data) as [idx|] eqn:Hf; [|by intros [= <-]].
  intros [= <-]. destruct (find_Some _ _ _ Hf) as [[_ Hlen] _].
  rewrite <- (fit_length_length (length ob) rb) at 1.
  rewrite length_assign_slice by lia. rewrite fit_length_length. lia.
Qed.

Lemma run_steps_length (translations : list (text * text)) : ∀ data out,
  run_steps rapi_step translations data = Some out → length out = length data.
Proof.
  induction translations as [|item translations IH]; intros data out; simpl.
  - by intros [= <-].
  - destruct (rapi_step data item) as [data'|] eqn:Hstep; [|done].
    cbn [mbind option_bind]. intros Hrun.
    rewrite (IH _ _ Hrun). by apply (rapi_step_length data item).
Qed.

Lemma run_steps_agree (translations : list (text * text)) : ∀ data,
  run_steps rapi_step translations data = run_steps kalibrasi_step translations data.
Proof.
  induction translations as [|item translations IH]; intros data; [done|].
  simpl. rewrite steps_agree. destruct (kalibrasi_step data item); [|done].
  cbn [mbind option_bind]. apply IH.
Qed.

(** X20. The two injection scripts compute the same bytes: for every
    translation table and file, padding or cutting the replacement before
    the search or after it makes no difference. *)
Theorem scripts_agree (translations : list (text * text)) (data : list byte) :
  kodingan_final_rapi translations data
  = kalibrasi_visual_final_banget translations data.
Proof. apply run_steps_agree. Qed.

(** X21. Whatever the translation table, the file an injection script
    writes has the size of the file it read: the size check at the end of
    the scripts cannot fail. *)
Theorem injection_keeps_size (translations : list (text * text))
    (data out : list byte) :
  kodingan_final_rapi translations data = Some out ∨
  kalibrasi_visual_final_banget translations data = Some out →
  length out = length data.
Proof.
  unfold kodingan_final_rapi, kalibrasi_visual_final_banget.
  intros [Hrun | Hrun]; [|rewrite <- run_steps_agree in Hrun];
    by apply (run_steps_length translations).
Qed.

(** X22. One replacement touches the first occurrence of the original text
    only: when its bytes occur in the file, those of the first occurrence
    are replaced by the replacement brought to their length and every other
    byte stays; when they do not occur the file is unchanged. *)
Theorem step_replaces_first_occurrence (data : list byte)
    (original replacement : text) (orig_bytes repl_bytes : list byte) :
  encode original = Some orig_bytes →
  encode replacement = Some repl_bytes →
  ((∀ j, ¬ occurs_at orig_bytes data j) ∧
   rapi_step data (original, replacement) = Some data)
  ∨ (∃ idx,
       occurs_at orig_bytes data idx ∧
       (∀ j, j < idx → ¬ occurs_at orig_bytes data j) ∧
       rapi_step data (original, replacement)
       = Some (take idx data ++ fit_length (length orig_bytes) repl_bytes ++
               drop (idx + length orig_bytes) data)).
Proof.
  intros Ho Hr. unfold rapi_step. rewrite Ho, Hr. cbn [mbind option_bind].
  destruct (find orig_bytes data) as [idx|] eqn:Hf.
  - right. exists idx. destruct (find_Some _ _ _ Hf) as [Hat Hfirst].
    split_and!; [done..|]. unfold assign_slice. by rewrite Nat.max_r by lia.
  - left. split; [by apply find_None | done].
Qed.

Lemma rapi_step_None (data : list byte) (item : text * text) :
  rapi_step data item = None ↔ encode item.1 = None ∨ encode item.2 = None.
Proof.
  destruct item as [original replacement]. unfold rapi_step. cbn [fst snd].
  destruct (encode original) as [ob|]; cbn [mbind option_bind];
    [|split; [intros _; by left | done]].
  destruct (encode replacement) as [rb|]; cbn [mbind option_bind];
    [|split; [intros _; by right | done]].
  destruct (find ob data); (split; [done | by intros [|]]).
Qed.

(** X23. An injection script gives up, writing nothing, exactly when some
    text of the translation table cannot be encoded, whether or not the text
    occurs in the file. *)
Theorem injection_fails_iff (translations : list (text * text)) (data : list byte) :
  kodingan_final_rapi translations data = None
  ↔ Exists (λ item, encode item.1 = None ∨ encode item.2 = None) translations.
Proof.
  unfold kodingan_final_rapi. revert data.
  induction translations as [|item translations IH]; intros data.
  - simpl. split; [done | by intros ?%Exists_nil].
  - rewrite Exists_cons, <- (rapi_step_None data item). cbn [run_steps].
    destruct (rapi_step data item) as [data'|]; cbn [mbind option_bind].
    + rewrite IH. split; [intros ?; by right | by intros [|]].
    + split; [intros _; by left | done].
Qed.

End WithCodec.

Lemma injection_keeps_size_witness :
  length [x82; xa0; x20; x78] = length [x82; xa2; x78; x78].
Proof.
  apply (injection_keeps_size (H:=hiragana) [([0x3044%N], [0x3042%N; 0x58%N]); ([0x78%N], [])]
           [x82; xa2; x78; x78] [x82; xa0; x20; x78]).
  left. reflexivity.
Defined.

Lemma step_replaces_first_occurrence_witness :
  ((∀ j, ¬ occurs_at [x78] [x82; xa2; x78; x78] j) ∧
   rapi_step (H:=hiragana) [x82; xa2; x78; x78] ([0x78%N], [0x41%N; 0x42%N])
   = Some [x82; xa2; x78; x78])
  ∨ (∃ idx,
       occurs_at [x78] [x82; xa2; x78; x78] idx ∧
       (∀ j, j < idx → ¬ occurs_at [x78] [x82; xa2; x78; x78] j) ∧
       rapi_step (H:=hiragana) [x82; xa2; x78; x78] ([0x78%N], [0x41%N; 0x42%N])
       = Some (take idx [x82; xa2; x78; x78] ++ fit_length (length [x78]) [x41; x42] ++
               drop (idx + length [x78]) [x82; xa2; x78; x78])).
Proof.
  apply (step_replaces_first_occurrence (H:=hiragana) [x82; xa2; x78; x78]
           [0x78%N] [0x41%N; 0x42%N] [x78] [x41; x42]); reflexivity.
Defined.

End InjectFacts.

(** ** The integrity check *)

Module VerifyFacts.
Import PFT Verify Samples.

Lemma foldl_sizes (entries : list Entry) : ∀ c : N,
  foldl (λ cumulative e, cumulative + e.2)%N c entries
  = (c + foldl (λ cumulative e, cumulative + e.2)%N 0 entries)%N.
Proof.
  induction entries as [|e entries IH]; intros c; simpl; [lia|].
  rewrite (IH (c + e.2)%N), (IH (0 + e.2)%N). lia.
Qed.

(** When the sizes add up to no more than the archive holds, the entry loop
    counts no error. *)
Lemma verify_fold_no_error (actual_size : N) (entries : list Entry) :
  ∀ offset errors,
  (offset + foldl (λ cumulative e, cumulative + e.2)%N 0%N entries ≤ actual_size)%N →
  (foldl (verify_step actual_size) (offset, errors) entries).2 = errors.
Proof.
  induction entries as [|[[name idx] size] entries IH]; intros offset errors Hle;
    [done|].
  cbn [foldl verify_step] in *. cbn [snd] in Hle.
  rewrite foldl_sizes in Hle.
  replace (actual_size <? offset + size)%N with false
    by (symmetry; apply N.ltb_ge; lia).
  apply IH. lia.
Qed.

(** X24. [verify_integrity] passes exactly when the index can be read and
    the sizes of its entries add up to the length of the archive: the entry
    loop adds nothing to the verdict, and the block numbers play no part. *)
Theorem verify_integrity_iff (pft_data archive_data : list byte) :
  verify_integrity pft_data archive_data = inr true
  ↔ ∃ entries,
      analyze_pft pft_data
      = inr (entries, N.of_nat (length archive_data)).
Proof.
  unfold verify_integrity.
  destruct (analyze_pft pft_data) as [err|[entries expected]] eqn:Ha.
  - split; [done | by intros [? ?]].
  - pose proof (verify_fold_no_error (N.of_nat (length archive_data)) entries 0%N 0)
      as Hfold.
    destruct (foldl _ (0%N, 0) entries) as [offset errors] eqn:Hf. cbn [snd] in Hfold.
    assert (Hexp : expected = foldl (λ cumulative e, cumulative + e.2)%N 0%N entries).
    { unfold analyze_pft in Ha. destruct (unpack_header _); [done|]. by injection Ha as <- <-. }
    split.
    + intros [= Hb]. apply andb_true_iff in Hb as [_ Heq%N.eqb_eq].
      exists entries. by rewrite Heq.
    + intros [entries' [= <- Heq]]. rewrite Heq, N.eqb_refl, andb_true_r.
      rewrite Hfold by lia. done.
Qed.

Lemma first_difference_spec (orig_data : list byte) : ∀ new_data i,
  match first_difference i orig_data new_data with
  | Some (j, a, b) =>
      ∃ k, j = i + k ∧ take k orig_data = take k new_data ∧
           orig_data !! k = Some a ∧ new_data !! k = Some b ∧ a ≠ b
  | None =>
      take (Nat.min (length orig_data) (length new_data)) orig_data
      = take (Nat.min (length orig_data) (length new_data)) new_data
  end.
Proof.
  induction orig_data as [|a orig IH]; intros [|b new] i; try done.
  simpl. destruct (Byte.eqb a b) eqn:Hab.
  - apply byte_dec_bl in Hab as ->. specialize (IH new (S i)).
    destruct (first_difference (S i) orig new) as [[[j a'] b']|].
    + destruct IH as (k & -> & Htake & Ha & Hb & Hne).
      exists (S k). split_and!; [lia | by simpl; rewrite Htake | done..].
    + by rewrite IH.
  - exists 0. split_and!; [lia | done | done | done |].
    intros ->. by rewrite (byte_dec_lb eq_refl) in Hab.
Qed.

(** X25. The difference [compare_archives] reports is the first one: the
    two files agree before the offset and differ at it.  It reports none
    exactly when one file is a prefix of the other, also when their lengths
    differ. *)
Theorem first_difference_first (orig_data new_data : list byte) :
  match first_difference 0 orig_data new_data with
  | Some (i, a, b) =>
      take i orig_data = take i new_data ∧
      orig_data !! i = Some a ∧ new_data !! i = Some b ∧ a ≠ b
  | None =>
      take (Nat.min (length orig_data) (length new_data)) orig_data
      = take (Nat.min (length orig_data) (length new_data)) new_data
  end.
Proof.
  pose proof (first_difference_spec orig_data new_data 0) as Hspec.
  destruct (first_difference 0 orig_data new_data) as [[[i a] b]|]; [|done].
  destruct Hspec as (k & -> & Hrest). done.
Qed.

End VerifyFacts.
